(** * Reduction operators, dispatch and the per-thread reduction protocol

    A shallow embedding of

    - [src/unary/unary_red_util.h]: the reduction operator codes, the
      dispatcher [op_dispatch], the operator registry [UnaryRedOp] and
      the type-erased operator [UntypedScalarRedOp];
    - [src/unary/scalar_unary_red_omp.cc]: the OpenMP body of the scalar
      reduction;
    - [src/cupynumeric/index/repeat_template.inl] and
      [src/cupynumeric/matrix/transpose_template.inl]: the task shims of
      repeat and transpose.

    Integer and boolean element values are mathematical integers kept in
    the range of their C++ type, with the conversion back to the type
    written out.  The values of the floating-point and complex element
    types are not interpreted: the operators on them are parameters of
    the development. *)

From stdpp Require Import base option list numbers.

Local Open Scope Z_scope.

(** ** Assertions

    [assert(c)] aborts the process when [c] is false, unless the
    translation unit is compiled with [NDEBUG], where it expands to
    nothing.  A run is [Undefined] when it reads through a null pointer
    or past the end of an object: C++ gives it no behaviour. *)

Inductive outcome (A : Type) : Type :=
| Done (a : A)
| Abort
| Undefined.
Arguments Done {A} a.
Arguments Abort {A}.
Arguments Undefined {A}.

#[global] Instance outcome_ret : MRet outcome := fun A a => Done a.
#[global] Instance outcome_bind : MBind outcome := fun A B k m =>
  match m with
  | Done a => k a
  | Abort => Abort
  | Undefined => Undefined
  end.

Definition assert_ (NDEBUG : bool) (c : bool) : outcome unit :=
  if NDEBUG then Done tt else if c then Done tt else Abort.

(** ** Operator codes and [op_dispatch] *)

(** [enum class UnaryRedCode : int]. *)
Inductive UnaryRedCode : Set := MAX | MIN | PROD | SUM.

#[global] Instance UnaryRedCode_eq_dec : EqDecision UnaryRedCode.
Proof. solve_decision. Defined.

(** The value of the underlying [int] of each enumerator. *)
Definition UnaryRedCode_value (c : UnaryRedCode) : Z :=
  match c with
  | MAX => 1
  | MIN => 2
  | PROD => 3
  | SUM => 4
  end.

(** [op_dispatch(op_code, f, args...)].  The run-time tag is given by the
    value of its underlying [int], so that a tag outside the enumeration
    (a deserialized or cast integer) can be written.  [f c] stands for
    the specialization [f.template operator()<c>]. *)
Definition op_dispatch {Args R : Type} (NDEBUG : bool) (op_code : Z)
    (f : UnaryRedCode -> Args -> R) (args : Args) : outcome R :=
  match op_code with
  | 1 => Done (f MAX args)
  | 2 => Done (f MIN args)
  | 3 => Done (f PROD args)
  | 4 => Done (f SUM args)
  | _ => _ ← assert_ NDEBUG false; Done (f MAX args)
  end.

(** ** Element types *)

(** [LegateTypeCode], the core library's type tags; [MAX_TYPE_NUMBER] is
    the tag of a scalar that holds no value. *)
Inductive LegateTypeCode : Set :=
| BOOL_LT | INT8_LT | INT16_LT | INT32_LT | INT64_LT
| UINT8_LT | UINT16_LT | UINT32_LT | UINT64_LT
| HALF_LT | FLOAT_LT | DOUBLE_LT | COMPLEX64_LT | COMPLEX128_LT
| MAX_TYPE_NUMBER.

#[global] Instance LegateTypeCode_eq_dec : EqDecision LegateTypeCode.
Proof. solve_decision. Defined.

(** The C++ type [legate_type_of<TYPE_CODE>], as far as values are
    interpreted here: [bool], a signed or unsigned integer of a given
    width, or a type whose values are left uninterpreted. *)
Inductive scalar_kind : Set :=
| Boolean
| Signed (bits : Z)
| Unsigned (bits : Z)
| Uninterpreted.

Definition legate_type_of (ty : LegateTypeCode) : scalar_kind :=
  match ty with
  | BOOL_LT => Boolean
  | INT8_LT => Signed 8
  | INT16_LT => Signed 16
  | INT32_LT => Signed 32
  | INT64_LT => Signed 64
  | UINT8_LT => Unsigned 8
  | UINT16_LT => Unsigned 16
  | UINT32_LT => Unsigned 32
  | UINT64_LT => Unsigned 64
  | _ => Uninterpreted
  end.

Definition is_integral (ty : LegateTypeCode) : bool :=
  match legate_type_of ty with
  | Uninterpreted => false
  | _ => true
  end.

(** [std::numeric_limits<VAL>::lowest()] and [max()]. *)
Definition lowest (ty : LegateTypeCode) : Z :=
  match legate_type_of ty with
  | Signed bits => - 2 ^ (bits - 1)
  | _ => 0
  end.

Definition highest (ty : LegateTypeCode) : Z :=
  match legate_type_of ty with
  | Boolean => 1
  | Signed bits => 2 ^ (bits - 1) - 1
  | Unsigned bits => 2 ^ bits - 1
  | Uninterpreted => 0
  end.

Definition in_range (ty : LegateTypeCode) (v : Z) : Prop :=
  lowest ty <= v <= highest ty.

(** The number of values of an integer type, [2 ^ bits]. *)
Definition modulus (ty : LegateTypeCode) : Z := highest ty - lowest ty + 1.

(** Conversion of the [int]-or-wider result of an arithmetic expression
    back to [VAL]: non-zero is [true] for [bool]; for the integer types
    the result is the value of the type congruent to [v] modulo
    [2 ^ bits] (two's complement wrap-around for the signed ones). *)
Definition convert (ty : LegateTypeCode) (v : Z) : Z :=
  match legate_type_of ty with
  | Boolean => if v =? 0 then 0 else 1
  | Signed _ | Unsigned _ => (v - lowest ty) `mod` modulus ty + lowest ty
  | Uninterpreted => v
  end.

(** ** The runtime's reduction operators on integers and booleans

    [Legion::SumReduction<VAL>] and its siblings, exclusive variant: the
    sum is [rhs1 += rhs2], the product [rhs1 *= rhs2], the maximum
    [if (rhs2 > rhs1) rhs1 = rhs2] and the minimum
    [if (rhs2 < rhs1) rhs1 = rhs2].  Each function returns the new value
    of its first argument. *)
Definition SumReduction (ty : LegateTypeCode) (rhs1 rhs2 : Z) : Z :=
  convert ty (rhs1 + rhs2).

Definition ProdReduction (ty : LegateTypeCode) (rhs1 rhs2 : Z) : Z :=
  convert ty (rhs1 * rhs2).

Definition MaxReduction (rhs1 rhs2 : Z) : Z :=
  if rhs2 >? rhs1 then rhs2 else rhs1.

Definition MinReduction (rhs1 rhs2 : Z) : Z :=
  if rhs2 <? rhs1 then rhs2 else rhs1.

Definition integral_redop (op : UnaryRedCode) (ty : LegateTypeCode) : Z -> Z -> Z :=
  match op with
  | MAX => MaxReduction
  | MIN => MinReduction
  | PROD => ProdReduction ty
  | SUM => SumReduction ty
  end.

(** ** The operator registry [UnaryRedOp<OP_CODE, TYPE_CODE>] *)

(** [UnaryRedOp<OP_CODE, TYPE_CODE>::valid]: each partial specialization
    on the operator sets it, and the full specializations for
    [COMPLEX128_LT] clear it for [MAX], [MIN] and [PROD]. *)
Definition UnaryRedOp_valid (OP_CODE : UnaryRedCode) (TYPE_CODE : LegateTypeCode) : bool :=
  match OP_CODE, TYPE_CODE with
  | MAX, COMPLEX128_LT => false
  | MAX, _ => true
  | MIN, COMPLEX128_LT => false
  | MIN, _ => true
  | PROD, COMPLEX128_LT => false
  | PROD, _ => true
  | SUM, _ => true
  end.

(** ** Type-erased scalars *)

(** [UntypedScalar]: a type tag and the storage of one value of that
    type.  The payload of an integer or boolean scalar is its value; the
    payload of a floating-point or complex scalar is its bit pattern.
    The empty scalar, tagged [MAX_TYPE_NUMBER], owns no storage: its
    [ptr()] is null and its payload field means nothing. *)
Record UntypedScalar : Set := mkUntypedScalar {
  code : LegateTypeCode;
  ptr : Z
}.

#[global] Instance UntypedScalar_eq_dec : EqDecision UntypedScalar.
Proof. solve_decision. Defined.

(** The scalars that exist: the payload of an integer or boolean scalar
    is a value of its type. *)
Definition well_formed (s : UntypedScalar) : Prop :=
  is_integral (code s) = true -> in_range (code s) (ptr s).

(** [sizeof(legate_type_of<TYPE_CODE>)], in bytes. *)
Definition sizeof (ty : LegateTypeCode) : Z :=
  match ty with
  | BOOL_LT | INT8_LT | UINT8_LT => 1
  | INT16_LT | UINT16_LT | HALF_LT => 2
  | INT32_LT | UINT32_LT | FLOAT_LT => 4
  | INT64_LT | UINT64_LT | DOUBLE_LT | COMPLEX64_LT => 8
  | COMPLEX128_LT => 16
  | MAX_TYPE_NUMBER => 0
  end.

(** The bytes of an object of type [ty] that holds [v], as the unsigned
    number they spell, least significant byte first (the byte order of
    the machines the library runs on): two's complement for the signed
    integers. *)
Definition to_bytes (ty : LegateTypeCode) (v : Z) : Z :=
  v `mod` 2 ^ (8 * sizeof ty).

(** The value of type [VAL] that the first [sizeof(VAL)] of the bytes
    [raw] spell; a byte other than 0 and 1 is no [bool]. *)
Definition from_bytes (VAL : LegateTypeCode) (raw : Z) : option Z :=
  let low := raw `mod` 2 ^ (8 * sizeof VAL) in
  match legate_type_of VAL with
  | Boolean => if low <? 2 then Some low else None
  | Signed _ | Unsigned _ => Some (convert VAL low)
  | Uninterpreted => Some low
  end.

(** [*static_cast<VAL *>(s.ptr())] as an rvalue: the pointer to the
    payload of [s] read at [VAL].  The pointer of the empty scalar is
    null; an object of the very type [VAL] gives its value; an object of
    another type gives what its first [sizeof(VAL)] bytes spell; an
    object shorter than [VAL] is read past its end. *)
Definition read_at (VAL : LegateTypeCode) (s : UntypedScalar) : option Z :=
  if decide (code s = MAX_TYPE_NUMBER) then None
  else if decide (code s = VAL) then Some (ptr s)
  else if sizeof VAL <=? sizeof (code s)
       then from_bytes VAL (to_bytes (code s) (ptr s))
       else None.

(** [*static_cast<VAL *>(s.ptr()) = v]: the scalar [s] after the
    assignment through its pointer.  The tag is not touched; an object
    of another type keeps the bytes behind the first [sizeof(VAL)]. *)
Definition write_at (VAL : LegateTypeCode) (v : Z) (s : UntypedScalar)
    : option UntypedScalar :=
  if decide (code s = MAX_TYPE_NUMBER) then None
  else if decide (code s = VAL) then Some (mkUntypedScalar (code s) v)
  else if sizeof VAL <=? sizeof (code s)
       then payload ← from_bytes (code s)
                        (to_bytes (code s) (ptr s) `div` 2 ^ (8 * sizeof VAL)
                           * 2 ^ (8 * sizeof VAL)
                         + to_bytes VAL v);
            Some (mkUntypedScalar (code s) payload)
       else None.

(** The core library's [type_dispatch(code, f, args...)]: one arm per
    element type, and the sentinel behind an assertion as in
    [op_dispatch]. *)
Definition type_dispatch {Args R : Type} (NDEBUG : bool) (c : LegateTypeCode)
    (f : LegateTypeCode -> Args -> R) (args : Args) : outcome R :=
  match c with
  | MAX_TYPE_NUMBER => _ ← assert_ NDEBUG false; Done (f BOOL_LT args)
  | _ => Done (f c args)
  end.

Section Runtime.

(** The runtime's operators on the element types that are not
    interpreted here (floating point and complex), on bit patterns;
    the first argument of [float_apply] and [float_fold] is the template
    parameter [EXCLUSIVE]. *)
Variable float_identity : UnaryRedCode -> LegateTypeCode -> Z.
Variable float_apply : bool -> UnaryRedCode -> LegateTypeCode -> Z -> Z -> Z.
Variable float_fold : bool -> UnaryRedCode -> LegateTypeCode -> Z -> Z -> Z.

(** [UnaryRedOp<OP_CODE, TYPE_CODE>::OP::apply<EXCLUSIVE>] and
    [fold<EXCLUSIVE>].  The non-exclusive instantiations update their
    first argument atomically; on the integers the value they leave is
    the one the exclusive instantiations leave. *)
Definition OP_apply (EXCLUSIVE : bool) (OP_CODE : UnaryRedCode)
    (TYPE_CODE : LegateTypeCode) (lhs rhs : Z) : Z :=
  if is_integral TYPE_CODE then integral_redop OP_CODE TYPE_CODE lhs rhs
  else float_apply EXCLUSIVE OP_CODE TYPE_CODE lhs rhs.

Definition OP_fold (EXCLUSIVE : bool) (OP_CODE : UnaryRedCode)
    (TYPE_CODE : LegateTypeCode) (rhs1 rhs2 : Z) : Z :=
  if is_integral TYPE_CODE then integral_redop OP_CODE TYPE_CODE rhs1 rhs2
  else float_fold EXCLUSIVE OP_CODE TYPE_CODE rhs1 rhs2.

(** Modelled from the spec: [UnaryRedOp<OP_CODE, TYPE_CODE>::identity]
    is declared in [unary_red_util.h] and defined in a file that is not
    among the sources.  The neutral element of the operator: 0 for
    [SUM], 1 for [PROD], the lowest value of the type for [MAX] and the
    highest for [MIN]. *)
Definition UnaryRedOp_identity (OP_CODE : UnaryRedCode) (TYPE_CODE : LegateTypeCode) : Z :=
  if is_integral TYPE_CODE then
    match OP_CODE with
    | MAX => lowest TYPE_CODE
    | MIN => highest TYPE_CODE
    | PROD => 1
    | SUM => 0
    end
  else float_identity OP_CODE TYPE_CODE.

(** [UnaryRedOp<OP_CODE, TYPE_CODE>::fold<true>(rhs1, rhs2)]; the
    result is the new value of [rhs1]. *)
Definition UnaryRedOp_fold (OP_CODE : UnaryRedCode) (TYPE_CODE : LegateTypeCode)
    (rhs1 rhs2 : Z) : Z :=
  OP_fold true OP_CODE TYPE_CODE rhs1 rhs2.

(** *** [UntypedScalarRedOp<OP_CODE>] *)

(** Modelled from the spec: [UntypedScalarRedOp<OP_CODE>::identity] is
    defined in a file that is not among the sources; a reduction
    starts from the empty scalar. *)
Definition UntypedScalarRedOp_identity : UntypedScalar :=
  mkUntypedScalar MAX_TYPE_NUMBER 0.

(** [apply_fn<EXCLUSIVE>::operator()<TYPE_CODE>(lhs, rhs)].  Each of the
    two pointers is given by the scalar whose payload it addresses.
    The first overload reads both pointers at
    [VAL = legate_type_of<TYPE_CODE>], calls [OP::apply<EXCLUSIVE>] and
    leaves the result behind [lhs]; the second one, chosen when the pair
    is not valid, is [assert(false)] and nothing else.  The result is
    the scalar behind [lhs] afterwards. *)
Definition apply_fn (NDEBUG : bool) (OP_CODE : UnaryRedCode) (EXCLUSIVE : bool)
    (TYPE_CODE : LegateTypeCode) (args : UntypedScalar * UntypedScalar)
    : outcome UntypedScalar :=
  let '(lhs, rhs) := args in
  if UnaryRedOp_valid OP_CODE TYPE_CODE then
    match read_at TYPE_CODE lhs, read_at TYPE_CODE rhs with
    | Some l, Some r =>
        match write_at TYPE_CODE (OP_apply EXCLUSIVE OP_CODE TYPE_CODE l r) lhs with
        | Some lhs' => Done lhs'
        | None => Undefined
        end
    | _, _ => Undefined
    end
  else _ ← assert_ NDEBUG false; Done lhs.

(** [fold_fn<EXCLUSIVE>::operator()<TYPE_CODE>(lhs, rhs)], the same with
    [OP::fold<EXCLUSIVE>]. *)
Definition fold_fn (NDEBUG : bool) (OP_CODE : UnaryRedCode) (EXCLUSIVE : bool)
    (TYPE_CODE : LegateTypeCode) (args : UntypedScalar * UntypedScalar)
    : outcome UntypedScalar :=
  let '(lhs, rhs) := args in
  if UnaryRedOp_valid OP_CODE TYPE_CODE then
    match read_at TYPE_CODE lhs, read_at TYPE_CODE rhs with
    | Some l, Some r =>
        match write_at TYPE_CODE (OP_fold EXCLUSIVE OP_CODE TYPE_CODE l r) lhs with
        | Some lhs' => Done lhs'
        | None => Undefined
        end
    | _, _ => Undefined
    end
  else _ ← assert_ NDEBUG false; Done lhs.

(** [UntypedScalarRedOp<OP_CODE>::apply<EXCLUSIVE>(lhs, rhs)]; the
    result is the new value of [lhs]. *)
Definition UntypedScalarRedOp_apply (NDEBUG : bool) (OP_CODE : UnaryRedCode)
    (EXCLUSIVE : bool) (lhs rhs : UntypedScalar) : outcome UntypedScalar :=
  _ ← assert_ NDEBUG EXCLUSIVE;
  if decide (MAX_TYPE_NUMBER = code lhs) then Done rhs
  else
    r ← type_dispatch NDEBUG (code lhs) (apply_fn NDEBUG OP_CODE EXCLUSIVE) (lhs, rhs);
    r.

(** [UntypedScalarRedOp<OP_CODE>::fold<EXCLUSIVE>(rhs1, rhs2)]; the
    result is the new value of [rhs1]. *)
Definition UntypedScalarRedOp_fold (NDEBUG : bool) (OP_CODE : UnaryRedCode)
    (EXCLUSIVE : bool) (rhs1 rhs2 : UntypedScalar) : outcome UntypedScalar :=
  _ ← assert_ NDEBUG EXCLUSIVE;
  if decide (MAX_TYPE_NUMBER = code rhs1) then Done rhs2
  else
    r ← type_dispatch NDEBUG (code rhs1) (fold_fn NDEBUG OP_CODE EXCLUSIVE) (rhs1, rhs2);
    r.

(** The merge-only fold of the spec's design note: it always dispatches
    to the typed fold, and has no assignment from an empty [rhs1].
    Stated to be compared with [UntypedScalarRedOp_fold]. *)
Definition fold_merge_only (NDEBUG : bool) (OP_CODE : UnaryRedCode)
    (EXCLUSIVE : bool) (rhs1 rhs2 : UntypedScalar) : outcome UntypedScalar :=
  _ ← assert_ NDEBUG EXCLUSIVE;
  r ← type_dispatch NDEBUG (code rhs1) (fold_fn NDEBUG OP_CODE EXCLUSIVE) (rhs1, rhs2);
  r.

(** *** The OpenMP body of the scalar reduction *)

(** One iteration of the work-shared loop, run by thread [tid] on index
    [idx]: [OP::fold<true>(locals[tid], inptr[idx])].  An index outside
    either array leaves [locals] as it is. *)
Definition loop_iteration (OP_CODE : UnaryRedCode) (CODE : LegateTypeCode)
    (inptr : list Z) (locals : list Z) (it : nat * nat) : list Z :=
  match locals !! it.1, inptr !! it.2 with
  | Some acc, Some x => <[it.1 := UnaryRedOp_fold OP_CODE CODE acc x]> locals
  | _, _ => locals
  end.

(** The parallel region.  [trace] lists the iterations [(tid, idx)] in
    the order in which they took effect: the interleaving of the threads
    that one run happened to produce. *)
Definition parallel_region (OP_CODE : UnaryRedCode) (CODE : LegateTypeCode)
    (inptr : list Z) (locals : list Z) (trace : list (nat * nat)) : list Z :=
  foldl (loop_iteration OP_CODE CODE inptr) locals trace.

(** Modelled from the spec: [OMPLoop<DIM>::unary_reduction_loop], the
    traversal of a rectangle that is not dense, is not among the
    sources.  Each lane folds the elements of its part of the domain,
    found by coordinate, into its own accumulator; [inptr] lists the
    elements of the rectangle in the order of the flattened index. *)
Definition unary_reduction_loop (OP_CODE : UnaryRedCode) (CODE : LegateTypeCode)
    (locals : list Z) (inptr : list Z) (trace : list (nat * nat)) : list Z :=
  foldl (loop_iteration OP_CODE CODE inptr) locals trace.

(** [ScalarUnaryRedImplBody<VariantKind::OMP, OP_CODE, CODE, DIM>::operator()];
    [max_threads] is [omp_get_max_threads()], [inptr] holds the [volume]
    elements of [rect], and the result is the new value of [result]. *)
Definition ScalarUnaryRedImplBody_OMP (OP_CODE : UnaryRedCode) (CODE : LegateTypeCode)
    (result : Z) (inptr : list Z) (dense : bool) (max_threads : nat)
    (trace : list (nat * nat)) : Z :=
  let locals := replicate max_threads (UnaryRedOp_identity OP_CODE CODE) in
  let locals :=
    if dense then parallel_region OP_CODE CODE inptr locals trace
    else unary_reduction_loop OP_CODE CODE locals inptr trace in
  foldl (UnaryRedOp_fold OP_CODE CODE) result locals.

(** The accumulator of one lane after it folded the elements at [idxs],
    in that order, starting from [acc]. *)
Definition lane_fold (OP_CODE : UnaryRedCode) (CODE : LegateTypeCode)
    (inptr : list Z) (acc : Z) (idxs : list nat) : Z :=
  foldl (fun acc idx =>
           match inptr !! idx with
           | Some x => UnaryRedOp_fold OP_CODE CODE acc x
           | None => acc
           end) acc idxs.

End Runtime.

(** Operators that ignore their second argument, to stand for the
    uninterpreted ones where the development is run on integers. *)
Definition no_float_identity : UnaryRedCode -> LegateTypeCode -> Z :=
  fun _ _ => 0.

Definition no_float_redop : bool -> UnaryRedCode -> LegateTypeCode -> Z -> Z -> Z :=
  fun _ _ _ rhs1 _ => rhs1.

(** ** Schedules of the work-shared loop *)

(** The iterations that thread [tid] ran, in its own order. *)
Definition iterations_of (tid : nat) (trace : list (nat * nat)) : list nat :=
  (filter (fun it : nat * nat => it.1 = tid) trace).*2.

(** [schedule !! tid] is the list of iterations assigned to thread [tid]
    ([schedule(static)]: fixed by the loop bounds and the number of
    threads).  A trace follows the schedule when every thread ran its
    own iterations, in order, and no thread outside the schedule ran. *)
Definition follows (schedule : list (list nat)) (trace : list (nat * nat)) : Prop :=
  forall tid, iterations_of tid trace = default [] (schedule !! tid).

(** ** The task shims of repeat and transpose *)

(** [Rect<DIM>]: the bounds of each dimension, both inclusive. *)
Record Rect : Set := mkRect {
  lo : list Z;
  hi : list Z
}.

(** [Rect::empty()]: some dimension has [lo > hi]. *)
Definition Rect_empty (r : Rect) : bool :=
  existsb (fun b : Z * Z => b.1 >? b.2) (zip (lo r) (hi r)).

(** The stores a task is given. *)
Inductive store : Set := output | input | repeats_arr | out | in_.

(** What a shim does with its stores, in program order.  The kernel
    bodies are declared in the sources and defined elsewhere: they are
    the only code that reads or writes elements. *)
Inductive action : Set :=
| read_accessor (s : store)
| write_accessor (s : store)
| bind_empty_data (s : store)
| RepeatImplBody (repeats : option Z) (axis : Z) (input_rect : Rect)
| TransposeImplBody (rect : Rect).

Definition is_kernel_body (a : action) : bool :=
  match a with
  | RepeatImplBody _ _ _ | TransposeImplBody _ => true
  | _ => false
  end.

(** [RepeatArgs], with each store given by its shape. *)
Record RepeatArgs : Set := mkRepeatArgs {
  args_input : Rect;
  args_repeats : Z;
  args_axis : Z;
  args_scalar_repeats : bool
}.

(** [RepeatImpl<KIND>::operator()<CODE, DIM>(args)]. *)
Definition RepeatImpl (args : RepeatArgs) : list action :=
  let input_rect := args_input args in
  let input_arr := [read_accessor input] in
  if Rect_empty input_rect then
    if negb (args_scalar_repeats args)
    then input_arr ++ [bind_empty_data output]
    else input_arr
  else if args_scalar_repeats args then
    input_arr ++ [RepeatImplBody (Some (args_repeats args)) (args_axis args) input_rect]
  else
    input_arr ++ [read_accessor repeats_arr;
                  RepeatImplBody None (args_axis args) input_rect].

(** [TransposeArgs]: the shape of [args.out]. *)
Record TransposeArgs : Set := mkTransposeArgs {
  args_out : Rect
}.

(** [TransposeImpl<KIND>::operator()<CODE>(args)]. *)
Definition TransposeImpl (args : TransposeArgs) : list action :=
  let rect := args_out args in
  if Rect_empty rect then []
  else [write_accessor out; read_accessor in_; TransposeImplBody rect].

(** ** The laws of a reduction operator

    A reduction operator is a commutative monoid on the values of its
    element type; [P] is the range of the type. *)
Record monoid_on {A : Type} (P : A -> Prop) (f : A -> A -> A) (e : A) : Prop := {
  unit_in : P e;
  closed a b : P a -> P b -> P (f a b);
  assoc a b c : P a -> P b -> P c -> f (f a b) c = f a (f b c);
  comm a b : P a -> P b -> f a b = f b a;
  left_unit a : P a -> f e a = a;
  right_unit a : P a -> f a e = a
}.

(** ** Uses of the operators *)

(** A reduction instance that starts from [lhs] and takes the values
    [rhss] one after the other with [apply<true>], as the runtime does
    with the values a task produces; an assertion that fails stops it. *)
Definition apply_all (float_apply : bool -> UnaryRedCode -> LegateTypeCode -> Z -> Z -> Z)
    (NDEBUG : bool) (OP_CODE : UnaryRedCode) (lhs : UntypedScalar)
    (rhss : list UntypedScalar) : outcome UntypedScalar :=
  foldl (fun acc rhs =>
           lhs ← acc; UntypedScalarRedOp_apply float_apply NDEBUG OP_CODE true lhs rhs)
        (Done lhs) rhss.

(** The number of kernel bodies a shim invoked. *)
Definition kernel_invocations (acts : list action) : nat :=
  length (filter (fun a => is_kernel_body a = true) acts).

(** * Properties *)

(** ** Folds over a commutative monoid *)

Section Folds.

Context {A : Type} (P : A -> Prop) (f : A -> A -> A) (e : A).
Context (M : monoid_on P f e).

Lemma foldl_closed a l : P a -> Forall P l -> P (foldl f a l).
Proof.
  intros Ha Hl. revert a Ha.
  induction Hl as [|x l Hx _ IH]; intros a Ha; simpl; [done|].
  apply IH. by apply (closed P f e M).
Qed.

(** A fold from [a] is the fold from the unit, combined with [a]. *)
Lemma foldl_from_unit a l :
  P a -> Forall P l -> foldl f a l = f a (foldl f e l).
Proof.
  intros Ha Hl. revert a Ha.
  induction Hl as [|x l Hx Hl IH]; intros a Ha; simpl.
  - by rewrite (right_unit P f e M).
  - rewrite (left_unit P f e M) by done.
    rewrite IH by (by apply (closed P f e M)).
    rewrite (IH x) by done.
    apply (assoc P f e M); [done..|].
    apply foldl_closed; [apply (unit_in P f e M)|done].
Qed.

Lemma foldl_Permutation a l l' :
  P a -> Forall P l -> l ≡ₚ l' -> foldl f a l = foldl f a l'.
Proof.
  intros Ha Hl Hperm. revert a Ha Hl.
  induction Hperm as [|x l l' _ IH|x y l|l l' l'' H1 IH1 H2 IH2];
    intros a Ha Hl; simpl.
  - done.
  - inversion_clear Hl. apply IH; [|done]. by apply (closed P f e M).
  - inversion_clear Hl as [|? ? Hy Hl']. inversion_clear Hl' as [|? ? Hx Hl].
    f_equal.
    rewrite !(assoc P f e M) by done.
    f_equal. by apply (comm P f e M).
  - rewrite IH1 by done. apply IH2; [done|]. by rewrite <- H1.
Qed.

(** Folding the accumulators of the lanes is folding every element. *)
Lemma foldl_lanes a (lanes : list (list A)) :
  P a -> Forall (Forall P) lanes ->
  foldl f a (foldl f e <$> lanes) = foldl f a (concat lanes).
Proof.
  intros Ha Hl. revert a Ha.
  induction Hl as [|lane lanes Hlane _ IH]; intros a Ha; simpl; [done|].
  rewrite foldl_app.
  rewrite <- (foldl_from_unit a lane) by done.
  apply IH. by apply foldl_closed.
Qed.

End Folds.

(** ** The integer operators are commutative monoids *)

Lemma wrap_range lo m v : 0 < m -> lo <= (v - lo) `mod` m + lo < lo + m.
Proof. intros Hm. pose proof (Z.mod_pos_bound (v - lo) m Hm). lia. Qed.

Lemma wrap_small lo m v : lo <= v < lo + m -> (v - lo) `mod` m + lo = v.
Proof. intros Hv. rewrite Z.mod_small by lia. lia. Qed.

Lemma wrap_add_l lo m a b :
  0 < m -> ((a - lo) `mod` m + lo + b - lo) `mod` m = (a + b - lo) `mod` m.
Proof.
  intros Hm.
  replace ((a - lo) `mod` m + lo + b - lo) with ((a - lo) `mod` m + b) by lia.
  rewrite Zplus_mod_idemp_l. f_equal. lia.
Qed.

Lemma wrap_mul_l lo m a b :
  0 < m -> (((a - lo) `mod` m + lo) * b - lo) `mod` m = (a * b - lo) `mod` m.
Proof.
  intros Hm. rewrite (Z.mod_eq (a - lo) m) by lia.
  replace ((a - lo - m * ((a - lo) `div` m) + lo) * b - lo)
    with (a * b - lo + (- ((a - lo) `div` m) * b) * m) by lia.
  apply Z_mod_plus_full.
Qed.

(** An integral type is [bool], or its conversion wraps around. *)
Lemma integral_cases ty :
  is_integral ty = true ->
  (ty = BOOL_LT) \/
  (0 < modulus ty /\ lowest ty <= 0 /\ 1 <= highest ty /\
   forall v, convert ty v = (v - lowest ty) `mod` modulus ty + lowest ty).
Proof.
  destruct ty; try discriminate; intros _; (by left) || right;
    (split; [by vm_compute|]); (split; [by vm_compute|]);
    (split; [by vm_compute|]); done.
Qed.

Lemma in_range_bool v : in_range BOOL_LT v <-> v = 0 \/ v = 1.
Proof. unfold in_range. change (lowest BOOL_LT) with 0. change (highest BOOL_LT) with 1. lia. Qed.

Lemma convert_in_range ty v : is_integral ty = true -> in_range ty (convert ty v).
Proof.
  intros Hty. destruct (integral_cases ty Hty) as [->|(Hm & _ & _ & Hc)].
  - apply in_range_bool. unfold convert; simpl. case_match; auto.
  - rewrite Hc. unfold in_range.
    pose proof (wrap_range (lowest ty) (modulus ty) v Hm).
    unfold modulus in *. lia.
Qed.

Lemma convert_small ty v : is_integral ty = true -> in_range ty v -> convert ty v = v.
Proof.
  intros Hty Hv. destruct (integral_cases ty Hty) as [->|(Hm & _ & _ & Hc)].
  - apply in_range_bool in Hv as [-> | ->]; done.
  - rewrite Hc. apply wrap_small. unfold in_range, modulus in *. lia.
Qed.

Lemma MaxReduction_max rhs1 rhs2 : MaxReduction rhs1 rhs2 = rhs1 `max` rhs2.
Proof. unfold MaxReduction. rewrite Z.gtb_ltb. destruct (Z.ltb_spec rhs1 rhs2); lia. Qed.

Lemma MinReduction_min rhs1 rhs2 : MinReduction rhs1 rhs2 = rhs1 `min` rhs2.
Proof. unfold MinReduction. destruct (Z.ltb_spec rhs2 rhs1); lia. Qed.

Ltac bool_cases :=
  repeat match goal with
         | H : in_range BOOL_LT _ |- _ => apply in_range_bool in H as [-> | ->]
         end;
  try (apply in_range_bool); vm_compute; auto.

Lemma SumReduction_monoid ty :
  is_integral ty = true -> monoid_on (in_range ty) (SumReduction ty) 0.
Proof.
  intros Hty. pose proof (convert_in_range ty) as Hin.
  destruct (integral_cases ty Hty) as [->|(Hm & Hlo & Hhi & Hc)].
  { split; intros; bool_cases. }
  unfold SumReduction. split.
  - unfold in_range. lia.
  - intros a b _ _. by apply Hin.
  - intros a b c _ _ _. rewrite !Hc. f_equal.
    rewrite wrap_add_l by done.
    replace (a + ((b + c - lowest ty) `mod` modulus ty + lowest ty) - lowest ty)
      with ((b + c - lowest ty) `mod` modulus ty + lowest ty + a - lowest ty) by lia.
    rewrite wrap_add_l by done. f_equal. lia.
  - intros a b _ _. by rewrite Z.add_comm.
  - intros a Ha. by apply convert_small.
  - intros a Ha. rewrite Z.add_0_r. by apply convert_small.
Qed.

Lemma ProdReduction_monoid ty :
  is_integral ty = true -> monoid_on (in_range ty) (ProdReduction ty) 1.
Proof.
  intros Hty. pose proof (convert_in_range ty) as Hin.
  destruct (integral_cases ty Hty) as [->|(Hm & Hlo & Hhi & Hc)].
  { split; intros; bool_cases. }
  unfold ProdReduction. split.
  - unfold in_range. lia.
  - intros a b _ _. by apply Hin.
  - intros a b c _ _ _. rewrite !Hc. f_equal.
    rewrite wrap_mul_l by done.
    rewrite (Z.mul_comm a ((b * c - lowest ty) `mod` modulus ty + lowest ty)).
    rewrite wrap_mul_l by done. f_equal. lia.
  - intros a b _ _. by rewrite Z.mul_comm.
  - intros a Ha. rewrite Z.mul_1_l. by apply convert_small.
  - intros a Ha. rewrite Z.mul_1_r. by apply convert_small.
Qed.

Lemma MaxReduction_monoid ty :
  is_integral ty = true -> monoid_on (in_range ty) MaxReduction (lowest ty).
Proof.
  intros Hty.
  assert (lowest ty <= highest ty) as Hle.
  { destruct (integral_cases ty Hty) as [->|(? & ? & ? & _)]; [done|lia]. }
  split; unfold in_range; intros; rewrite ?MaxReduction_max, ?MinReduction_min; lia.
Qed.

Lemma MinReduction_monoid ty :
  is_integral ty = true -> monoid_on (in_range ty) MinReduction (highest ty).
Proof.
  intros Hty.
  assert (lowest ty <= highest ty) as Hle.
  { destruct (integral_cases ty Hty) as [->|(? & ? & ? & _)]; [done|lia]. }
  split; unfold in_range; intros; rewrite ?MaxReduction_max, ?MinReduction_min; lia.
Qed.

(** ** Elements picked by index *)

Lemma omap_lookup_seq_app {A : Type} (k l : list A) :
  omap (fun idx => (k ++ l) !! idx) (seq (length k) (length l)) = l.
Proof.
  revert k. induction l as [|x l IH]; intros k; simpl; [done|].
  rewrite list_lookup_middle by done. f_equal.
  specialize (IH (k ++ [x])).
  rewrite <- app_assoc, length_app in IH. simpl in IH.
  by rewrite Nat.add_1_r in IH.
Qed.

Lemma omap_lookup_seq {A : Type} (l : list A) :
  omap (fun idx => l !! idx) (seq 0 (length l)) = l.
Proof. apply (omap_lookup_seq_app [] l). Qed.

Lemma omap_concat {A B : Type} (g : A -> option B) (ls : list (list A)) :
  omap g (concat ls) = concat ((fun l : list A => omap g l) <$> ls).
Proof.
  induction ls as [|l ls IH]; simpl; [done|].
  by rewrite omap_app, IH.
Qed.

Lemma Forall_omap_lookup {A : Type} (P : A -> Prop) (l : list A) (idxs : list nat) :
  Forall P l -> Forall P (omap (fun idx => l !! idx) idxs).
Proof.
  intros Hl. induction idxs as [|idx idxs IH]; simpl; [constructor|].
  destruct (l !! idx) as [x|] eqn:Hx; [|done].
  constructor; [|done]. eapply Forall_lookup_1; [exact Hl|exact Hx].
Qed.

Section RuntimeProperties.

Variable float_identity : UnaryRedCode -> LegateTypeCode -> Z.
Variable float_apply : bool -> UnaryRedCode -> LegateTypeCode -> Z -> Z -> Z.
Variable float_fold : bool -> UnaryRedCode -> LegateTypeCode -> Z -> Z -> Z.

Local Abbreviation identity := (UnaryRedOp_identity float_identity).
Local Abbreviation fold := (UnaryRedOp_fold float_fold).
Local Abbreviation lane_fold' := (lane_fold float_fold).
Local Abbreviation body := (ScalarUnaryRedImplBody_OMP float_identity float_fold).

Lemma UnaryRedOp_monoid op ty :
  is_integral ty = true -> monoid_on (in_range ty) (fold op ty) (identity op ty).
Proof.
  intros Hty.
  unfold UnaryRedOp_fold, OP_fold, UnaryRedOp_identity. rewrite Hty.
  destruct op; simpl.
  - by apply MaxReduction_monoid.
  - by apply MinReduction_monoid.
  - by apply ProdReduction_monoid.
  - by apply SumReduction_monoid.
Qed.

(** *** The parallel region, lane by lane *)

Lemma unary_reduction_loop_eq op ty locals inptr trace :
  unary_reduction_loop float_fold op ty locals inptr trace
  = parallel_region float_fold op ty inptr locals trace.
Proof. done. Qed.

(** Whatever the interleaving, the accumulator of a lane is the fold of
    the iterations the lane itself ran. *)
Lemma parallel_region_lookup op ty inptr trace locals tid :
  parallel_region float_fold op ty inptr locals trace !! tid
  = (fun acc => lane_fold' op ty inptr acc (iterations_of tid trace)) <$> locals !! tid.
Proof.
  unfold parallel_region. revert locals.
  induction trace as [|[t idx] trace IH]; intros locals; simpl.
  { by destruct (locals !! tid). }
  rewrite IH. unfold iterations_of, loop_iteration; simpl.
  rewrite filter_cons; simpl.
  destruct (decide (t = tid)) as [->|Hne]; simpl.
  - destruct (locals !! tid) as [acc|] eqn:Hacc; simpl.
    + destruct (inptr !! idx) as [x|] eqn:Hx; simpl.
      * rewrite list_lookup_insert_eq by (by eapply lookup_lt_Some).
        done.
      * by rewrite ?Hacc, ?Hx.
    + by rewrite ?Hacc.
  - destruct (locals !! t) as [acc|]; [|done].
    destruct (inptr !! idx) as [x|]; [|done].
    by rewrite list_lookup_insert_ne.
Qed.

Lemma parallel_region_follows op ty inptr schedule trace :
  follows schedule trace ->
  parallel_region float_fold op ty inptr
    (replicate (length schedule) (identity op ty)) trace
  = lane_fold' op ty inptr (identity op ty) <$> schedule.
Proof.
  intros Hfollows. apply list_eq; intros tid.
  rewrite parallel_region_lookup, list_lookup_fmap, Hfollows.
  destruct (schedule !! tid) as [idxs|] eqn:Hidxs; simpl.
  - rewrite lookup_replicate_2 by (by eapply lookup_lt_Some). done.
  - apply lookup_ge_None in Hidxs.
    by rewrite (proj1 (lookup_replicate_None _ _ _) Hidxs).
Qed.

Lemma body_follows op ty result inptr dense schedule trace :
  follows schedule trace ->
  body op ty result inptr dense (length schedule) trace
  = foldl (fold op ty) result (lane_fold' op ty inptr (identity op ty) <$> schedule).
Proof.
  intros Hfollows. unfold ScalarUnaryRedImplBody_OMP.
  rewrite unary_reduction_loop_eq.
  replace (if dense then _ else _)
    with (parallel_region float_fold op ty inptr
            (replicate (length schedule) (identity op ty)) trace)
    by (by destruct dense).
  by rewrite parallel_region_follows.
Qed.

(** A lane folds the elements found at its indices. *)
Lemma lane_fold_omap op ty inptr acc idxs :
  lane_fold' op ty inptr acc idxs
  = foldl (fold op ty) acc (omap (fun idx => inptr !! idx) idxs).
Proof.
  unfold lane_fold. revert acc.
  induction idxs as [|idx idxs IH]; intros acc; simpl; [done|].
  rewrite IH. by destruct (inptr !! idx).
Qed.

(** Two runs that follow the same schedule leave the same accumulators,
    whatever the number of accumulators. *)
Lemma parallel_region_schedule op ty inptr locals schedule trace1 trace2 :
  follows schedule trace1 -> follows schedule trace2 ->
  parallel_region float_fold op ty inptr locals trace1
  = parallel_region float_fold op ty inptr locals trace2.
Proof.
  intros H1 H2. apply list_eq; intros tid.
  by rewrite !parallel_region_lookup, H1, H2.
Qed.

(** *** The reduction protocol *)

(** Whatever value of the element type the caller left in [result], the
    body folds every element of the input into it. *)
Lemma body_is_sequential_fold op ty result inptr dense schedule trace :
  is_integral ty = true ->
  in_range ty result ->
  Forall (in_range ty) inptr ->
  concat schedule ≡ₚ seq 0 (length inptr) ->
  follows schedule trace ->
  body op ty result inptr dense (length schedule) trace
  = foldl (fold op ty) result inptr.
Proof.
  intros Hty Hresult Hin Hperm Hfollows.
  pose proof (UnaryRedOp_monoid op ty Hty) as M.
  rewrite (body_follows _ _ _ _ _ _ _ Hfollows).
  assert (lane_fold' op ty inptr (identity op ty) <$> schedule
          = foldl (fold op ty) (identity op ty) <$>
              ((fun idxs : list nat => omap (fun idx => inptr !! idx) idxs) <$> schedule))
    as ->.
  { rewrite <- list_fmap_compose. apply list_fmap_ext.
    intros ? idxs _. apply lane_fold_omap. }
  rewrite (foldl_lanes _ _ _ M).
  - rewrite <- omap_concat.
    trans (foldl (fold op ty) result
             (omap (fun idx => inptr !! idx) (seq 0 (length inptr))));
      [|by rewrite omap_lookup_seq].
    apply (foldl_Permutation _ _ _ M).
    + done.
    + by apply Forall_omap_lookup.
    + by rewrite Hperm.
  - done.
  - apply Forall_fmap, Forall_forall. intros idxs _. by apply Forall_omap_lookup.
Qed.

(** C1: for the four operators and every integer or boolean element
    type, the OpenMP body started from the identity returns the fold of
    the whole input in its original order, however the iterations are
    partitioned among the lanes (the lanes' index lists, put together,
    are a permutation of the indices of the input) and interleaved:
    every lane folds its own group into an accumulator seeded with the
    identity and the accumulators are then folded together.  In
    particular [SUM] over [1, 2, 3, 4] with lanes [1, 2] and [3, 4]
    leaves the accumulators 3 and 7 and returns 10. *)
Theorem lanes_then_combine_is_sequential_fold :
  (forall op ty inptr dense schedule trace,
     is_integral ty = true ->
     Forall (in_range ty) inptr ->
     concat schedule ≡ₚ seq 0 (length inptr) ->
     follows schedule trace ->
     UnaryRedOp_valid op ty = true /\
     body op ty (identity op ty) inptr dense (length schedule) trace
     = foldl (fold op ty) (identity op ty) inptr)
  /\ parallel_region float_fold SUM INT32_LT [1; 2; 3; 4]
       (replicate 2 (identity SUM INT32_LT))
       [(0, 0); (1, 2); (0, 1); (1, 3)]%nat = [3; 7]
  /\ body SUM INT32_LT (identity SUM INT32_LT) [1; 2; 3; 4] true 2
       [(0, 0); (1, 2); (0, 1); (1, 3)]%nat = 10.
Proof.
  split; [|split; reflexivity].
  intros op ty inptr dense schedule trace Hty Hin Hperm Hfollows.
  split; [by destruct op, ty|].
  apply body_is_sequential_fold; [done| |done..].
  apply (unit_in _ _ _ (UnaryRedOp_monoid op ty Hty)).
Qed.

(** X18: for the four operators and every integer or boolean element
    type (all of them valid pairs), the identity is neutral on both
    sides of the fold, for every value of the type. *)
Theorem fold_identity_laws op ty x :
  is_integral ty = true ->
  in_range ty x ->
  UnaryRedOp_valid op ty = true /\
  fold op ty (identity op ty) x = x /\
  fold op ty x (identity op ty) = x.
Proof.
  intros Hty Hx. pose proof (UnaryRedOp_monoid op ty Hty) as M.
  split; [by destruct op, ty|]. split.
  - by apply (left_unit _ _ _ M).
  - by apply (right_unit _ _ _ M).
Qed.

(** C8: for a fixed number of lanes and a fixed static schedule, the
    OpenMP body returns the same result in every run, whatever the
    interleaving of the lanes, for every operator and element type:
    with one accumulator per lane of the schedule, each accumulator
    starts at the identity and receives its own lane's elements, and
    the accumulators are folded into the result in lane-index order. *)
Theorem omp_reduction_deterministic op ty result inptr dense max_threads schedule trace1 trace2 :
  follows schedule trace1 ->
  follows schedule trace2 ->
  body op ty result inptr dense max_threads trace1
  = body op ty result inptr dense max_threads trace2 /\
  body op ty result inptr dense (length schedule) trace1
  = foldl (fold op ty) result (lane_fold' op ty inptr (identity op ty) <$> schedule).
Proof.
  intros H1 H2. split; [|by apply body_follows].
  unfold ScalarUnaryRedImplBody_OMP. rewrite !unary_reduction_loop_eq.
  by rewrite (parallel_region_schedule _ _ _ _ _ _ _ H1 H2).
Qed.

End RuntimeProperties.

(** ** Dispatch on the operator code *)

Lemma op_code_outside op_code :
  (forall c, op_code <> UnaryRedCode_value c) ->
  forall {Args R : Type} NDEBUG (f : UnaryRedCode -> Args -> R) args,
    op_dispatch NDEBUG op_code f args = (_ ← assert_ NDEBUG false; Done (f MAX args)).
Proof.
  intros Hout Args R NDEBUG f args.
  pose proof (Hout MAX). pose proof (Hout MIN).
  pose proof (Hout PROD). pose proof (Hout SUM). simpl in *.
  unfold op_dispatch.
  destruct op_code as [|p|p]; [done| |done].
  destruct p as [[[|[]|]|[|[]|]|]|[[|[]|]|[|[]|]|]|]; done.
Qed.

(** C4: for each of the four enumerated codes, [op_dispatch] returns
    what the specialization of the callable for that very code returns
    on the arguments it was given, unchanged (so a callable that records
    its template parameter and arguments records exactly that one
    call); for a code outside the enumeration, the assertion fails. *)
Theorem op_dispatch_enumerated {Args R : Type} (f : UnaryRedCode -> Args -> R) (args : Args) :
  (forall NDEBUG c, op_dispatch NDEBUG (UnaryRedCode_value c) f args = Done (f c args)) /\
  (forall NDEBUG c,
     op_dispatch NDEBUG (UnaryRedCode_value c) (fun c' a => [(c', a)]) args
     = Done [(c, args)]) /\
  (forall op_code,
     (forall c, op_code <> UnaryRedCode_value c) ->
     op_dispatch false op_code f args = Abort).
Proof.
  split; [by intros NDEBUG []|]. split; [by intros NDEBUG []|].
  intros op_code Hout. by rewrite op_code_outside.
Qed.

(** C10: compiled with [NDEBUG], [op_dispatch] on a code outside the
    enumeration does not stop: it falls through to the [MAX]
    specialization of the callable and returns its result. *)
Theorem op_dispatch_unrecognized_is_MAX {Args R : Type}
    (f : UnaryRedCode -> Args -> R) (args : Args) (op_code : Z) :
  (forall c, op_code <> UnaryRedCode_value c) ->
  op_dispatch true op_code f args = Done (f MAX args).
Proof. intros Hout. by rewrite op_code_outside. Qed.

(** ** The operator registry *)

(** C9: the registry marks [PROD] over [COMPLEX128_LT] invalid, while
    [PROD] over [COMPLEX64_LT] and [SUM] over [COMPLEX128_LT] are valid;
    [COMPLEX128_LT] is the only element type [PROD] is invalid for. *)
Theorem PROD_COMPLEX128_invalid :
  UnaryRedOp_valid PROD COMPLEX128_LT = false /\
  UnaryRedOp_valid PROD COMPLEX64_LT = true /\
  UnaryRedOp_valid SUM COMPLEX128_LT = true /\
  (forall ty, UnaryRedOp_valid PROD ty = false <-> ty = COMPLEX128_LT).
Proof.
  repeat split; try done.
  - by destruct ty.
  - by intros ->.
Qed.

(** The invalid pairs are exactly the three full specializations. *)
Lemma UnaryRedOp_valid_false op ty :
  UnaryRedOp_valid op ty = false <-> ty = COMPLEX128_LT /\ op <> SUM.
Proof.
  split.
  - by destruct op, ty.
  - intros [-> Hop]. by destruct op.
Qed.

(** ** The type-erased operator *)

Section UntypedProperties.

Variable float_apply : bool -> UnaryRedCode -> LegateTypeCode -> Z -> Z -> Z.
Variable float_fold : bool -> UnaryRedCode -> LegateTypeCode -> Z -> Z -> Z.

Local Abbreviation apply := (UntypedScalarRedOp_apply float_apply).
Local Abbreviation fold := (UntypedScalarRedOp_fold float_fold).

Lemma type_dispatch_typed {Args R : Type} NDEBUG c (f : LegateTypeCode -> Args -> R) args :
  c <> MAX_TYPE_NUMBER -> type_dispatch NDEBUG c f args = Done (f c args).
Proof. by destruct c. Qed.

(** A typed scalar read or written at its own type. *)
Lemma read_at_own s : code s <> MAX_TYPE_NUMBER -> read_at (code s) s = Some (ptr s).
Proof.
  intros Hcode. unfold read_at.
  rewrite decide_False by done. by rewrite decide_True.
Qed.

Lemma write_at_own v s :
  code s <> MAX_TYPE_NUMBER -> write_at (code s) v s = Some (mkUntypedScalar (code s) v).
Proof.
  intros Hcode. unfold write_at.
  rewrite decide_False by done. by rewrite decide_True.
Qed.

Lemma read_at_null VAL s : code s = MAX_TYPE_NUMBER -> read_at VAL s = None.
Proof. intros Hcode. unfold read_at. by rewrite decide_True. Qed.

Lemma write_at_code VAL v s s' : write_at VAL v s = Some s' -> code s' = code s.
Proof.
  unfold write_at. repeat case_decide; try done.
  - by intros [= <-].
  - destruct (sizeof VAL <=? sizeof (code s)); [|done].
    destruct (from_bytes _ _); simpl; [|done]. by intros [= <-].
Qed.

Lemma apply_typed NDEBUG op lhs rhs :
  code lhs <> MAX_TYPE_NUMBER ->
  apply NDEBUG op true lhs rhs
  = apply_fn float_apply NDEBUG op true (code lhs) (lhs, rhs).
Proof.
  intros Hcode. unfold UntypedScalarRedOp_apply.
  rewrite type_dispatch_typed by done.
  destruct NDEBUG; simpl; by rewrite decide_False by done.
Qed.

Lemma fold_typed NDEBUG op rhs1 rhs2 :
  code rhs1 <> MAX_TYPE_NUMBER ->
  fold NDEBUG op true rhs1 rhs2
  = fold_fn float_fold NDEBUG op true (code rhs1) (rhs1, rhs2).
Proof.
  intros Hcode. unfold UntypedScalarRedOp_fold.
  rewrite type_dispatch_typed by done.
  destruct NDEBUG; simpl; by rewrite decide_False by done.
Qed.

(** The typed overloads on a valid pair, at the type of the first
    scalar: the second payload is read at that type. *)
Lemma apply_fn_valid NDEBUG op EXCLUSIVE lhs rhs :
  code lhs <> MAX_TYPE_NUMBER ->
  UnaryRedOp_valid op (code lhs) = true ->
  apply_fn float_apply NDEBUG op EXCLUSIVE (code lhs) (lhs, rhs)
  = match read_at (code lhs) rhs with
    | Some r => Done (mkUntypedScalar (code lhs)
                        (OP_apply float_apply EXCLUSIVE op (code lhs) (ptr lhs) r))
    | None => Undefined
    end.
Proof.
  intros Hcode Hvalid. unfold apply_fn. rewrite Hvalid, read_at_own by done.
  destruct (read_at (code lhs) rhs); [|done]. by rewrite write_at_own.
Qed.

Lemma fold_fn_valid NDEBUG op EXCLUSIVE rhs1 rhs2 :
  code rhs1 <> MAX_TYPE_NUMBER ->
  UnaryRedOp_valid op (code rhs1) = true ->
  fold_fn float_fold NDEBUG op EXCLUSIVE (code rhs1) (rhs1, rhs2)
  = match read_at (code rhs1) rhs2 with
    | Some r => Done (mkUntypedScalar (code rhs1)
                        (OP_fold float_fold EXCLUSIVE op (code rhs1) (ptr rhs1) r))
    | None => Undefined
    end.
Proof.
  intros Hcode Hvalid. unfold fold_fn. rewrite Hvalid, read_at_own by done.
  destruct (read_at (code rhs1) rhs2); [|done]. by rewrite write_at_own.
Qed.

(** C3 (amended): [MAX] and [MIN] over [COMPLEX128_LT] are invalid, while
    every operator over [COMPLEX64_LT] is valid; for an invalid pair and
    with assertions enabled, the typed [apply] and [fold] of the
    type-erased operator, and so the operator itself on an [lhs] of that
    type, stop at the assertion and produce no value; compiled with
    [NDEBUG] they return and leave the value behind [lhs] as it was. *)
Theorem invalid_pairs_assert :
  (forall op, op = MAX \/ op = MIN -> UnaryRedOp_valid op COMPLEX128_LT = false) /\
  (forall op, UnaryRedOp_valid op COMPLEX64_LT = true) /\
  (forall op EXCLUSIVE ty args,
     UnaryRedOp_valid op ty = false ->
     apply_fn float_apply false op EXCLUSIVE ty args = Abort /\
     fold_fn float_fold false op EXCLUSIVE ty args = Abort /\
     apply_fn float_apply true op EXCLUSIVE ty args = Done args.1 /\
     fold_fn float_fold true op EXCLUSIVE ty args = Done args.1) /\
  (forall op EXCLUSIVE lhs rhs,
     code lhs <> MAX_TYPE_NUMBER ->
     UnaryRedOp_valid op (code lhs) = false ->
     apply false op EXCLUSIVE lhs rhs = Abort /\
     fold false op EXCLUSIVE lhs rhs = Abort).
Proof.
  split; [by intros op [-> | ->]|]. split; [by intros []|]. split.
  - intros op EXCLUSIVE ty [lhs rhs] Hinvalid. unfold apply_fn, fold_fn.
    by rewrite Hinvalid.
  - intros op [] lhs rhs Hcode Hinvalid; [|done].
    rewrite apply_typed, fold_typed by done.
    unfold apply_fn, fold_fn. by rewrite Hinvalid.
Qed.

(** C5: on an empty [lhs], [apply] is the assignment [lhs = rhs]: the
    result has the tag and the payload of [rhs], whatever [lhs] held.
    On a typed [lhs] it dispatches on the tag of [lhs] to [apply_fn] at
    that type on the two payload pointers; for a valid pair that is the
    typed operator's [apply] on the payload of [lhs] and the payload of
    [rhs] read at the type of [lhs] (the payload itself when [rhs] has
    the type of [lhs]), for scalars that hold values of their types, and
    the tag of [lhs] stays.  Where the payload
    of [rhs] cannot be read at that type (an empty [rhs], or one of a
    shorter type) the run is undefined. *)
Theorem apply_assigns_or_merges NDEBUG op lhs rhs :
  (code lhs = MAX_TYPE_NUMBER -> apply NDEBUG op true lhs rhs = Done rhs) /\
  (code lhs <> MAX_TYPE_NUMBER ->
   apply NDEBUG op true lhs rhs
   = apply_fn float_apply NDEBUG op true (code lhs) (lhs, rhs)) /\
  (forall r,
     code lhs <> MAX_TYPE_NUMBER ->
     UnaryRedOp_valid op (code lhs) = true ->
     well_formed lhs ->
     read_at (code lhs) rhs = Some r ->
     apply NDEBUG op true lhs rhs
     = Done (mkUntypedScalar (code lhs)
               (OP_apply float_apply true op (code lhs) (ptr lhs) r))) /\
  (code lhs <> MAX_TYPE_NUMBER ->
   UnaryRedOp_valid op (code lhs) = true ->
   well_formed lhs ->
   well_formed rhs ->
   code rhs = code lhs ->
   apply NDEBUG op true lhs rhs
   = Done (mkUntypedScalar (code lhs)
             (OP_apply float_apply true op (code lhs) (ptr lhs) (ptr rhs)))) /\
  (code lhs <> MAX_TYPE_NUMBER ->
   UnaryRedOp_valid op (code lhs) = true ->
   read_at (code lhs) rhs = None ->
   apply NDEBUG op true lhs rhs = Undefined).
Proof.
  split; [|split; [|split; [|split]]].
  - intros Hcode. unfold UntypedScalarRedOp_apply. rewrite Hcode.
    by destruct NDEBUG.
  - apply apply_typed.
  - intros r Hcode Hvalid _ Hread.
    by rewrite apply_typed, apply_fn_valid, Hread.
  - intros Hcode Hvalid _ _ Hsame.
    rewrite apply_typed, apply_fn_valid by done.
    rewrite <- Hsame, read_at_own by congruence. by rewrite Hsame.
  - intros Hcode Hvalid Hread.
    by rewrite apply_typed, apply_fn_valid, Hread.
Qed.

(** C6 (amended): [fold] branches as [apply] does.  On an empty [rhs1] it
    is the assignment [rhs1 = rhs2]; on a typed [rhs1] it dispatches on
    the tag of [rhs1] to [fold_fn] at that type, which for a valid pair
    is the typed operator's [fold] on the payload of [rhs1] and the
    payload of [rhs2] read at the type of [rhs1].  The two functions
    differ only in the typed operation they reach: where the runtime's
    [fold] and [apply] agree at the type of [rhs1], so do they. *)
Theorem fold_assigns_or_merges NDEBUG op rhs1 rhs2 :
  (code rhs1 = MAX_TYPE_NUMBER -> fold NDEBUG op true rhs1 rhs2 = Done rhs2) /\
  (code rhs1 <> MAX_TYPE_NUMBER ->
   fold NDEBUG op true rhs1 rhs2
   = fold_fn float_fold NDEBUG op true (code rhs1) (rhs1, rhs2)) /\
  (forall r,
     code rhs1 <> MAX_TYPE_NUMBER ->
     UnaryRedOp_valid op (code rhs1) = true ->
     well_formed rhs1 ->
     read_at (code rhs1) rhs2 = Some r ->
     fold NDEBUG op true rhs1 rhs2
     = Done (mkUntypedScalar (code rhs1)
               (OP_fold float_fold true op (code rhs1) (ptr rhs1) r))) /\
  (code rhs1 <> MAX_TYPE_NUMBER ->
   UnaryRedOp_valid op (code rhs1) = true ->
   well_formed rhs1 ->
   well_formed rhs2 ->
   code rhs2 = code rhs1 ->
   fold NDEBUG op true rhs1 rhs2
   = Done (mkUntypedScalar (code rhs1)
             (OP_fold float_fold true op (code rhs1) (ptr rhs1) (ptr rhs2)))) /\
  ((forall a b,
      OP_fold float_fold true op (code rhs1) a b
      = OP_apply float_apply true op (code rhs1) a b) ->
   fold NDEBUG op true rhs1 rhs2 = apply NDEBUG op true rhs1 rhs2).
Proof.
  split; [|split; [|split; [|split]]].
  - intros Hcode. unfold UntypedScalarRedOp_fold. rewrite Hcode.
    by destruct NDEBUG.
  - apply fold_typed.
  - intros r Hcode Hvalid _ Hread.
    by rewrite fold_typed, fold_fn_valid, Hread.
  - intros Hcode Hvalid _ _ Hsame.
    rewrite fold_typed, fold_fn_valid by done.
    rewrite <- Hsame, read_at_own by congruence. by rewrite Hsame.
  - intros Hsame. destruct (decide (code rhs1 = MAX_TYPE_NUMBER)) as [Hcode|Hcode].
    + unfold UntypedScalarRedOp_fold, UntypedScalarRedOp_apply. rewrite Hcode.
      by destruct NDEBUG.
    + rewrite fold_typed, apply_typed by done.
      unfold fold_fn, apply_fn.
      destruct (UnaryRedOp_valid op (code rhs1)); [|done].
      destruct (read_at (code rhs1) rhs1); [|done].
      destruct (read_at (code rhs1) rhs2); [|done].
      by rewrite Hsame.
Qed.

End UntypedProperties.

(** ** The task shims on an empty domain *)

Lemma RepeatImpl_empty args :
  Rect_empty (args_input args) = true ->
  RepeatImpl args
  = read_accessor input ::
    (if args_scalar_repeats args then [] else [bind_empty_data output]).
Proof.
  intros Hempty. unfold RepeatImpl. rewrite Hempty.
  by destruct (args_scalar_repeats args).
Qed.

(** C7: on an empty input rectangle the repeat shim binds empty data to
    its output exactly when the repeat counts are an array, and
    returns; on an empty output rectangle the transpose shim returns at
    once.  Neither invokes its kernel body, the only code that writes
    elements. *)
Theorem empty_domain_short_circuits :
  (forall args,
     Rect_empty (args_input args) = true ->
     RepeatImpl args
     = read_accessor input ::
       (if args_scalar_repeats args then [] else [bind_empty_data output]) /\
     (bind_empty_data output ∈ RepeatImpl args <-> args_scalar_repeats args = false) /\
     Forall (fun a => is_kernel_body a = false) (RepeatImpl args)) /\
  (forall args,
     Rect_empty (args_out args) = true ->
     TransposeImpl args = []).
Proof.
  split.
  - intros args Hempty. rewrite RepeatImpl_empty by done.
    split; [done|].
    destruct (args_scalar_repeats args); split.
    + split; [|done]. intros Hin. apply list_elem_of_singleton in Hin. done.
    + by repeat constructor.
    + split; [done|]. intros _. apply list_elem_of_further, list_elem_of_here.
    + by repeat constructor.
  - intros args Hempty. unfold TransposeImpl. by rewrite Hempty.
Qed.

(** ** The properties on concrete inputs *)

(** [SUM] over four [int32_t] elements, two lanes that take the even and
    the odd indices, interleaved. *)
Lemma lanes_then_combine_witness :
  is_integral INT32_LT = true /\
  Forall (in_range INT32_LT) [1; 2; 3; 4] /\
  concat [[0; 2]; [1; 3]]%nat ≡ₚ seq 0 4 /\
  follows [[0; 2]; [1; 3]]%nat [(0, 0); (1, 1); (1, 3); (0, 2)]%nat /\
  UnaryRedOp_valid SUM INT32_LT = true /\
  ScalarUnaryRedImplBody_OMP no_float_identity no_float_redop SUM INT32_LT
    (UnaryRedOp_identity no_float_identity SUM INT32_LT)
    [1; 2; 3; 4] true 2 [(0, 0); (1, 1); (1, 3); (0, 2)]%nat
  = foldl (UnaryRedOp_fold no_float_redop SUM INT32_LT)
      (UnaryRedOp_identity no_float_identity SUM INT32_LT) [1; 2; 3; 4].
Proof.
  assert (is_integral INT32_LT = true) as Hty by reflexivity.
  assert (Forall (in_range INT32_LT) [1; 2; 3; 4]) as Hin
    by (repeat constructor; discriminate).
  assert (concat [[0; 2]; [1; 3]]%nat ≡ₚ seq 0 4) as Hperm
    by (simpl; apply Permutation_skip, Permutation_swap).
  assert (follows [[0; 2]; [1; 3]]%nat [(0, 0); (1, 1); (1, 3); (0, 2)]%nat) as Hfollows
    by (intros [|[|tid]]; reflexivity).
  split; [exact Hty|]. split; [exact Hin|]. split; [exact Hperm|].
  split; [exact Hfollows|].
  apply (proj1 (lanes_then_combine_is_sequential_fold no_float_identity no_float_redop)
           SUM INT32_LT [1; 2; 3; 4] true [[0; 2]; [1; 3]]%nat
           [(0, 0); (1, 1); (1, 3); (0, 2)]%nat Hty Hin Hperm Hfollows).
Defined.

(** The [uint8_t] product at 200 and the [int8_t] maximum at -5, neither
    of them the identity. *)
Lemma fold_identity_laws_witness :
  (is_integral UINT8_LT = true /\
   in_range UINT8_LT 200 /\
   UnaryRedOp_valid PROD UINT8_LT = true /\
   UnaryRedOp_fold no_float_redop PROD UINT8_LT
     (UnaryRedOp_identity no_float_identity PROD UINT8_LT) 200 = 200 /\
   UnaryRedOp_fold no_float_redop PROD UINT8_LT 200
     (UnaryRedOp_identity no_float_identity PROD UINT8_LT) = 200) /\
  (is_integral INT8_LT = true /\
   in_range INT8_LT (-5) /\
   UnaryRedOp_valid MAX INT8_LT = true /\
   UnaryRedOp_fold no_float_redop MAX INT8_LT
     (UnaryRedOp_identity no_float_identity MAX INT8_LT) (-5) = -5 /\
   UnaryRedOp_fold no_float_redop MAX INT8_LT (-5)
     (UnaryRedOp_identity no_float_identity MAX INT8_LT) = -5).
Proof.
  assert (is_integral UINT8_LT = true) as Hty1 by reflexivity.
  assert (in_range UINT8_LT 200) as Hx1 by (split; discriminate).
  assert (is_integral INT8_LT = true) as Hty2 by reflexivity.
  assert (in_range INT8_LT (-5)) as Hx2 by (split; discriminate).
  split.
  - split; [exact Hty1|]. split; [exact Hx1|].
    apply (fold_identity_laws no_float_identity no_float_redop PROD UINT8_LT 200 Hty1 Hx1).
  - split; [exact Hty2|]. split; [exact Hx2|].
    apply (fold_identity_laws no_float_identity no_float_redop MAX INT8_LT (-5) Hty2 Hx2).
Defined.

(** Two interleavings of the same static schedule of a wrapping
    [uint8_t] product. *)
Lemma omp_reduction_deterministic_witness :
  follows [[0; 1]; [2; 3]]%nat [(0, 0); (0, 1); (1, 2); (1, 3)]%nat /\
  follows [[0; 1]; [2; 3]]%nat [(1, 2); (0, 0); (1, 3); (0, 1)]%nat /\
  ScalarUnaryRedImplBody_OMP no_float_identity no_float_redop PROD UINT8_LT 1
    [20; 30; 40; 50] true 2 [(0, 0); (0, 1); (1, 2); (1, 3)]%nat
  = ScalarUnaryRedImplBody_OMP no_float_identity no_float_redop PROD UINT8_LT 1
      [20; 30; 40; 50] true 2 [(1, 2); (0, 0); (1, 3); (0, 1)]%nat.
Proof.
  assert (follows [[0; 1]; [2; 3]]%nat [(0, 0); (0, 1); (1, 2); (1, 3)]%nat) as H1
    by (intros [|[|tid]]; reflexivity).
  assert (follows [[0; 1]; [2; 3]]%nat [(1, 2); (0, 0); (1, 3); (0, 1)]%nat) as H2
    by (intros [|[|tid]]; reflexivity).
  split; [exact H1|]. split; [exact H2|].
  apply (proj1 (omp_reduction_deterministic no_float_identity no_float_redop
                  PROD UINT8_LT 1 [20; 30; 40; 50] true 2%nat [[0; 1]; [2; 3]]%nat
                  _ _ H1 H2)).
Defined.

(** The code 7 is outside the enumeration. *)
Lemma op_dispatch_enumerated_witness :
  (forall c, 7 <> UnaryRedCode_value c) /\
  op_dispatch false 7 (fun (c : UnaryRedCode) (a : Z) => (c, a)) 42 = Abort.
Proof.
  assert (forall c, 7 <> UnaryRedCode_value c) as Hout by (by intros []).
  split; [exact Hout|].
  apply (proj2 (proj2 (op_dispatch_enumerated (fun (c : UnaryRedCode) (a : Z) => (c, a)) 42))
           7 Hout).
Defined.

Lemma op_dispatch_unrecognized_is_MAX_witness :
  (forall c, 7 <> UnaryRedCode_value c) /\
  op_dispatch true 7 (fun (c : UnaryRedCode) (a : Z) => (c, a)) 42 = Done (MAX, 42).
Proof.
  assert (forall c, 7 <> UnaryRedCode_value c) as Hout by (by intros []).
  split; [exact Hout|].
  apply (op_dispatch_unrecognized_is_MAX (fun (c : UnaryRedCode) (a : Z) => (c, a)) 42 7 Hout).
Defined.

(** [MAX] over [COMPLEX128_LT], reached through a [complex128] scalar. *)
Lemma invalid_pairs_assert_witness :
  code (mkUntypedScalar COMPLEX128_LT 7) <> MAX_TYPE_NUMBER /\
  UnaryRedOp_valid MAX (code (mkUntypedScalar COMPLEX128_LT 7)) = false /\
  UntypedScalarRedOp_apply no_float_redop false MAX true
    (mkUntypedScalar COMPLEX128_LT 7) (mkUntypedScalar COMPLEX128_LT 9) = Abort /\
  UntypedScalarRedOp_fold no_float_redop false MAX true
    (mkUntypedScalar COMPLEX128_LT 7) (mkUntypedScalar COMPLEX128_LT 9) = Abort.
Proof.
  assert (code (mkUntypedScalar COMPLEX128_LT 7) <> MAX_TYPE_NUMBER) as Hcode
    by discriminate.
  assert (UnaryRedOp_valid MAX (code (mkUntypedScalar COMPLEX128_LT 7)) = false) as Hinvalid
    by reflexivity.
  split; [exact Hcode|]. split; [exact Hinvalid|].
  apply (proj2 (proj2 (proj2 (invalid_pairs_assert no_float_redop no_float_redop)))
           MAX true (mkUntypedScalar COMPLEX128_LT 7) (mkUntypedScalar COMPLEX128_LT 9)
           Hcode Hinvalid).
Defined.

(** C3 (as stated) fails: [MAX] and [MIN] over [COMPLEX64_LT] are valid,
    and their typed [apply] returns a value with assertions enabled. *)
Lemma ordering_over_COMPLEX64_is_valid :
  UnaryRedOp_valid MAX COMPLEX64_LT = true /\
  UnaryRedOp_valid MIN COMPLEX64_LT = true /\
  apply_fn no_float_redop false MAX true COMPLEX64_LT
    (mkUntypedScalar COMPLEX64_LT 7, mkUntypedScalar COMPLEX64_LT 9)
  = Done (mkUntypedScalar COMPLEX64_LT (no_float_redop true MAX COMPLEX64_LT 7 9)) /\
  ~ (forall op ty,
       op = MAX \/ op = MIN ->
       ty = COMPLEX64_LT \/ ty = COMPLEX128_LT ->
       UnaryRedOp_valid op ty = false).
Proof.
  split; [reflexivity|]. split; [reflexivity|]. split; [reflexivity|].
  intros Hall. specialize (Hall MAX COMPLEX64_LT (or_introl eq_refl) (or_introl eq_refl)).
  discriminate Hall.
Qed.

(** An empty scalar takes the [int32_t] scalar 5; the scalar 3 merges it
    to 8 under [SUM]; under [MAX] the scalar 3 reads the [int64_t]
    scalar [2 ^ 32 + 5] at [int32_t], as 5; an empty second scalar
    cannot be read. *)
Lemma apply_assigns_or_merges_witness :
  (code UntypedScalarRedOp_identity = MAX_TYPE_NUMBER /\
   UntypedScalarRedOp_apply no_float_redop false SUM true
     UntypedScalarRedOp_identity (mkUntypedScalar INT32_LT 5)
   = Done (mkUntypedScalar INT32_LT 5)) /\
  (code (mkUntypedScalar INT32_LT 3) <> MAX_TYPE_NUMBER /\
   UnaryRedOp_valid SUM (code (mkUntypedScalar INT32_LT 3)) = true /\
   well_formed (mkUntypedScalar INT32_LT 3) /\
   well_formed (mkUntypedScalar INT32_LT 5) /\
   code (mkUntypedScalar INT32_LT 5) = code (mkUntypedScalar INT32_LT 3) /\
   UntypedScalarRedOp_apply no_float_redop false SUM true
     (mkUntypedScalar INT32_LT 3) (mkUntypedScalar INT32_LT 5)
   = Done (mkUntypedScalar INT32_LT 8)) /\
  (UnaryRedOp_valid MAX (code (mkUntypedScalar INT32_LT 3)) = true /\
   read_at (code (mkUntypedScalar INT32_LT 3)) (mkUntypedScalar INT64_LT 4294967301)
   = Some 5 /\
   UntypedScalarRedOp_apply no_float_redop false MAX true
     (mkUntypedScalar INT32_LT 3) (mkUntypedScalar INT64_LT 4294967301)
   = Done (mkUntypedScalar INT32_LT 5)) /\
  (read_at (code (mkUntypedScalar INT32_LT 3)) UntypedScalarRedOp_identity = None /\
   UntypedScalarRedOp_apply no_float_redop false MAX true
     (mkUntypedScalar INT32_LT 3) UntypedScalarRedOp_identity
   = Undefined).
Proof.
  assert (code (mkUntypedScalar INT32_LT 3) <> MAX_TYPE_NUMBER) as Hcode by discriminate.
  assert (UnaryRedOp_valid SUM (code (mkUntypedScalar INT32_LT 3)) = true) as Hsum
    by reflexivity.
  assert (UnaryRedOp_valid MAX (code (mkUntypedScalar INT32_LT 3)) = true) as Hmax
    by reflexivity.
  assert (code (mkUntypedScalar INT32_LT 5) = code (mkUntypedScalar INT32_LT 3)) as Hsame
    by reflexivity.
  assert (read_at (code (mkUntypedScalar INT32_LT 3))
            (mkUntypedScalar INT64_LT 4294967301) = Some 5) as Hread
    by reflexivity.
  assert (read_at (code (mkUntypedScalar INT32_LT 3)) UntypedScalarRedOp_identity
          = None) as Hnull
    by reflexivity.
  assert (well_formed (mkUntypedScalar INT32_LT 3)) as Hwf3
    by (intros _; split; discriminate).
  assert (well_formed (mkUntypedScalar INT32_LT 5)) as Hwf5
    by (intros _; split; discriminate).
  split; [|split; [|split]].
  - split; [reflexivity|].
    apply (proj1 (apply_assigns_or_merges no_float_redop false SUM
                    UntypedScalarRedOp_identity (mkUntypedScalar INT32_LT 5))
             eq_refl).
  - split; [exact Hcode|]. split; [exact Hsum|].
    split; [exact Hwf3|]. split; [exact Hwf5|]. split; [exact Hsame|].
    apply (proj1 (proj2 (proj2 (proj2
             (apply_assigns_or_merges no_float_redop false SUM
                (mkUntypedScalar INT32_LT 3) (mkUntypedScalar INT32_LT 5)))))
             Hcode Hsum Hwf3 Hwf5 Hsame).
  - split; [exact Hmax|]. split; [exact Hread|].
    apply (proj1 (proj2 (proj2
             (apply_assigns_or_merges no_float_redop false MAX
                (mkUntypedScalar INT32_LT 3) (mkUntypedScalar INT64_LT 4294967301))))
             5 Hcode Hmax Hwf3 Hread).
  - split; [exact Hnull|].
    apply (proj2 (proj2 (proj2 (proj2
             (apply_assigns_or_merges no_float_redop false MAX
                (mkUntypedScalar INT32_LT 3) UntypedScalarRedOp_identity))))
             Hcode Hmax Hnull).
Defined.

(** An empty scalar takes the [int32_t] scalar 5; the scalar 3 merges it
    to 15 under [PROD]; under [MIN] the scalar 3 reads the [int64_t]
    scalar [- 2 ^ 32] at [int32_t], as 0. *)
Lemma fold_assigns_or_merges_witness :
  (code UntypedScalarRedOp_identity = MAX_TYPE_NUMBER /\
   UntypedScalarRedOp_fold no_float_redop false PROD true
     UntypedScalarRedOp_identity (mkUntypedScalar INT32_LT 5)
   = Done (mkUntypedScalar INT32_LT 5)) /\
  (code (mkUntypedScalar INT32_LT 3) <> MAX_TYPE_NUMBER /\
   UnaryRedOp_valid PROD (code (mkUntypedScalar INT32_LT 3)) = true /\
   well_formed (mkUntypedScalar INT32_LT 3) /\
   well_formed (mkUntypedScalar INT32_LT 5) /\
   code (mkUntypedScalar INT32_LT 5) = code (mkUntypedScalar INT32_LT 3) /\
   UntypedScalarRedOp_fold no_float_redop false PROD true
     (mkUntypedScalar INT32_LT 3) (mkUntypedScalar INT32_LT 5)
   = Done (mkUntypedScalar INT32_LT 15)) /\
  (UnaryRedOp_valid MIN (code (mkUntypedScalar INT32_LT 3)) = true /\
   read_at (code (mkUntypedScalar INT32_LT 3)) (mkUntypedScalar INT64_LT (-4294967296))
   = Some 0 /\
   UntypedScalarRedOp_fold no_float_redop false MIN true
     (mkUntypedScalar INT32_LT 3) (mkUntypedScalar INT64_LT (-4294967296))
   = Done (mkUntypedScalar INT32_LT 0)).
Proof.
  assert (code (mkUntypedScalar INT32_LT 3) <> MAX_TYPE_NUMBER) as Hcode by discriminate.
  assert (UnaryRedOp_valid PROD (code (mkUntypedScalar INT32_LT 3)) = true) as Hprod
    by reflexivity.
  assert (UnaryRedOp_valid MIN (code (mkUntypedScalar INT32_LT 3)) = true) as Hmin
    by reflexivity.
  assert (code (mkUntypedScalar INT32_LT 5) = code (mkUntypedScalar INT32_LT 3)) as Hsame
    by reflexivity.
  assert (read_at (code (mkUntypedScalar INT32_LT 3))
            (mkUntypedScalar INT64_LT (-4294967296)) = Some 0) as Hread
    by reflexivity.
  assert (well_formed (mkUntypedScalar INT32_LT 3)) as Hwf3
    by (intros _; split; discriminate).
  assert (well_formed (mkUntypedScalar INT32_LT 5)) as Hwf5
    by (intros _; split; discriminate).
  split; [|split].
  - split; [reflexivity|].
    apply (proj1 (fold_assigns_or_merges no_float_redop no_float_redop false PROD
                    UntypedScalarRedOp_identity (mkUntypedScalar INT32_LT 5))
             eq_refl).
  - split; [exact Hcode|]. split; [exact Hprod|].
    split; [exact Hwf3|]. split; [exact Hwf5|]. split; [exact Hsame|].
    apply (proj1 (proj2 (proj2 (proj2
             (fold_assigns_or_merges no_float_redop no_float_redop false PROD
                (mkUntypedScalar INT32_LT 3) (mkUntypedScalar INT32_LT 5)))))
             Hcode Hprod Hwf3 Hwf5 Hsame).
  - split; [exact Hmin|]. split; [exact Hread|].
    apply (proj1 (proj2 (proj2
             (fold_assigns_or_merges no_float_redop no_float_redop false MIN
                (mkUntypedScalar INT32_LT 3) (mkUntypedScalar INT64_LT (-4294967296)))))
             0 Hcode Hmin Hwf3 Hread).
Defined.

(** C6 (as stated) fails: [fold] into an empty scalar is the assignment
    that [apply] performs, where a merge-only fold would dispatch on the
    sentinel tag and stop at the assertion. *)
Lemma fold_into_empty_assigns :
  UntypedScalarRedOp_fold no_float_redop false SUM true
    UntypedScalarRedOp_identity (mkUntypedScalar INT32_LT 5)
  = Done (mkUntypedScalar INT32_LT 5) /\
  UntypedScalarRedOp_fold no_float_redop false SUM true
    UntypedScalarRedOp_identity (mkUntypedScalar INT32_LT 5)
  = UntypedScalarRedOp_apply no_float_redop false SUM true
      UntypedScalarRedOp_identity (mkUntypedScalar INT32_LT 5) /\
  fold_merge_only no_float_redop false SUM true
    UntypedScalarRedOp_identity (mkUntypedScalar INT32_LT 5)
  = Abort /\
  UntypedScalarRedOp_fold no_float_redop false SUM true
    UntypedScalarRedOp_identity (mkUntypedScalar INT32_LT 5)
  <> fold_merge_only no_float_redop false SUM true
       UntypedScalarRedOp_identity (mkUntypedScalar INT32_LT 5).
Proof. repeat split. discriminate. Qed.

(** A one-dimensional input [0..-1] with array repeat counts, and a
    transpose of a [0..2] by [0..-1] output. *)
Lemma empty_domain_short_circuits_witness :
  (Rect_empty (args_input (mkRepeatArgs (mkRect [0] [-1]) 0 0 false)) = true /\
   RepeatImpl (mkRepeatArgs (mkRect [0] [-1]) 0 0 false)
   = [read_accessor input; bind_empty_data output]) /\
  (Rect_empty (args_out (mkTransposeArgs (mkRect [0; 0] [2; -1]))) = true /\
   TransposeImpl (mkTransposeArgs (mkRect [0; 0] [2; -1])) = []).
Proof.
  split.
  - split; [reflexivity|].
    apply (proj1 (proj1 empty_domain_short_circuits
                    (mkRepeatArgs (mkRect [0] [-1]) 0 0 false) eq_refl)).
  - split; [reflexivity|].
    apply (proj2 empty_domain_short_circuits
             (mkTransposeArgs (mkRect [0; 0] [2; -1])) eq_refl).
Defined.

(** * Further properties of the modelled code *)

Section ReductionProperties.

Variable float_identity : UnaryRedCode -> LegateTypeCode -> Z.
Variable float_apply : bool -> UnaryRedCode -> LegateTypeCode -> Z -> Z -> Z.
Variable float_fold : bool -> UnaryRedCode -> LegateTypeCode -> Z -> Z -> Z.

Local Abbreviation identity := (UnaryRedOp_identity float_identity).
Local Abbreviation fold := (UnaryRedOp_fold float_fold).
Local Abbreviation body := (ScalarUnaryRedImplBody_OMP float_identity float_fold).

(** ** The typed operators *)

(** X1: on the integer and boolean element types the fold of each of
    the four operators is associative and commutative, and its result
    is again a value of the element type. *)
Theorem UnaryRedOp_fold_assoc_comm op ty a b c :
  is_integral ty = true ->
  in_range ty a -> in_range ty b -> in_range ty c ->
  fold op ty (fold op ty a b) c = fold op ty a (fold op ty b c) /\
  fold op ty a b = fold op ty b a /\
  in_range ty (fold op ty a b).
Proof.
  intros Hty Ha Hb Hc.
  pose proof (UnaryRedOp_monoid float_identity float_fold op ty Hty) as M.
  split; [by apply (assoc _ _ _ M)|].
  split; [by apply (comm _ _ _ M)|by apply (closed _ _ _ M)].
Qed.

(** ** The OpenMP body *)

Lemma parallel_region_length op ty inptr locals trace :
  length (parallel_region float_fold op ty inptr locals trace) = length locals.
Proof.
  unfold parallel_region. revert locals.
  induction trace as [|it trace IH]; intros locals; simpl; [done|].
  rewrite IH. unfold loop_iteration.
  destruct (locals !! it.1); [|done].
  destruct (inptr !! it.2); [|done].
  apply length_insert.
Qed.

(** X2: the parallel region neither adds nor drops an accumulator, and a
    lane that ran no iteration of the loop finds its accumulator as it
    was before the region, whatever the other lanes did. *)
Theorem parallel_region_idle_lane op ty inptr locals trace tid :
  iterations_of tid trace = [] ->
  length (parallel_region float_fold op ty inptr locals trace) = length locals /\
  parallel_region float_fold op ty inptr locals trace !! tid = locals !! tid.
Proof.
  intros Hidle. split; [apply parallel_region_length|].
  rewrite parallel_region_lookup, Hidle.
  by destruct (locals !! tid).
Qed.

Lemma follows_idle schedule trace k :
  follows schedule trace -> follows (schedule ++ replicate k []) trace.
Proof.
  intros Hfollows tid. rewrite Hfollows.
  destruct (decide (tid < length schedule)%nat) as [Hlt|Hge].
  - by rewrite lookup_app_l.
  - rewrite lookup_app_r by lia.
    rewrite (proj2 (lookup_ge_None schedule tid)) by lia. simpl.
    destruct (replicate k [] !! (tid - length schedule)%nat) as [l|] eqn:Hl; [|done].
    by apply lookup_replicate_1 in Hl as [-> _].
Qed.

Lemma concat_idle (schedule : list (list nat)) k :
  concat (schedule ++ replicate k []) = concat schedule.
Proof.
  rewrite concat_app.
  replace (concat (replicate k ([] : list nat))) with ([] : list nat);
    [by rewrite app_nil_r|].
  induction k as [|k IH]; simpl; done.
Qed.

(** X3: [omp_get_max_threads()] may exceed the number of lanes that took
    part in the loop: the accumulators left over stay at the identity,
    and on the integer and boolean types the body still folds exactly
    the elements of the input into [result]. *)
Theorem body_spare_lanes op ty result inptr dense max_threads schedule trace :
  is_integral ty = true ->
  in_range ty result ->
  Forall (in_range ty) inptr ->
  (length schedule <= max_threads)%nat ->
  concat schedule ≡ₚ seq 0 (length inptr) ->
  follows schedule trace ->
  body op ty result inptr dense max_threads trace
  = foldl (fold op ty) result inptr.
Proof.
  intros Hty Hresult Hin Hle Hperm Hfollows.
  pose (k := (max_threads - length schedule)%nat).
  replace max_threads with (length (schedule ++ replicate k []))
    by (rewrite length_app, length_replicate; lia).
  apply body_is_sequential_fold; try done.
  - by rewrite concat_idle.
  - by apply follows_idle.
Qed.

(** X4: on the integer and boolean types the result does not depend on
    the number of lanes, on the way the iterations are divided among
    them, or on the interleaving: two runs over the same input with
    different thread counts and schedules return the same value. *)
Theorem body_lane_count_independent op ty result inptr dense
    max_threads1 schedule1 trace1 max_threads2 schedule2 trace2 :
  is_integral ty = true ->
  in_range ty result ->
  Forall (in_range ty) inptr ->
  (length schedule1 <= max_threads1)%nat ->
  concat schedule1 ≡ₚ seq 0 (length inptr) ->
  follows schedule1 trace1 ->
  (length schedule2 <= max_threads2)%nat ->
  concat schedule2 ≡ₚ seq 0 (length inptr) ->
  follows schedule2 trace2 ->
  body op ty result inptr dense max_threads1 trace1
  = body op ty result inptr dense max_threads2 trace2.
Proof.
  intros.
  rewrite (body_spare_lanes op ty result inptr dense max_threads1 schedule1 trace1) by done.
  by rewrite (body_spare_lanes op ty result inptr dense max_threads2 schedule2 trace2).
Qed.



(** X6: reductions compose: running the body on a second rectangle with
    the result of the first as [result] gives the fold of the two inputs
    put end to end, so a domain may be reduced piece by piece. *)
Theorem body_composes op ty result
    inptr1 dense1 max_threads1 schedule1 trace1
    inptr2 dense2 max_threads2 schedule2 trace2 :
  is_integral ty = true ->
  in_range ty result ->
  Forall (in_range ty) inptr1 ->
  (length schedule1 <= max_threads1)%nat ->
  concat schedule1 ≡ₚ seq 0 (length inptr1) ->
  follows schedule1 trace1 ->
  Forall (in_range ty) inptr2 ->
  (length schedule2 <= max_threads2)%nat ->
  concat schedule2 ≡ₚ seq 0 (length inptr2) ->
  follows schedule2 trace2 ->
  body op ty
    (body op ty result inptr1 dense1 max_threads1 trace1)
    inptr2 dense2 max_threads2 trace2
  = foldl (fold op ty) result (inptr1 ++ inptr2).
Proof.
  intros Hty Hresult Hin1 Hle1 Hperm1 Hf1 Hin2 Hle2 Hperm2 Hf2.
  pose proof (UnaryRedOp_monoid float_identity float_fold op ty Hty) as M.
  rewrite (body_spare_lanes op ty result inptr1 dense1 max_threads1 schedule1 trace1)
    by done.
  rewrite (body_spare_lanes op ty _ inptr2 dense2 max_threads2 schedule2 trace2)
    by (try done; by apply (foldl_closed _ _ _ M)).
  by rewrite foldl_app.
Qed.

(** X7: the result of the body is a value of the element type whenever
    [result] and the elements are: no run leaves the range of the type,
    whatever the number of lanes and the order of the iterations, even
    one that follows no schedule. *)
Theorem body_in_range op ty result inptr dense max_threads trace :
  is_integral ty = true ->
  in_range ty result ->
  Forall (in_range ty) inptr ->
  in_range ty (body op ty result inptr dense max_threads trace).
Proof.
  intros Hty Hresult Hin.
  pose proof (UnaryRedOp_monoid float_identity float_fold op ty Hty) as M.
  unfold ScalarUnaryRedImplBody_OMP. rewrite unary_reduction_loop_eq.
  replace (if dense then _ else _)
    with (parallel_region float_fold op ty inptr
            (replicate max_threads (identity op ty)) trace)
    by (by destruct dense).
  apply (foldl_closed _ _ _ M); [done|].
  unfold parallel_region.
  assert (Forall (in_range ty) (replicate max_threads (identity op ty))) as Hlocals.
  { apply Forall_replicate, (unit_in _ _ _ M). }
  revert Hlocals. generalize (replicate max_threads (identity op ty)).
  induction trace as [|it trace IH]; intros locals Hlocals; simpl; [done|].
  apply IH. unfold loop_iteration.
  destruct (locals !! it.1) as [acc|] eqn:Hacc; [|done].
  destruct (inptr !! it.2) as [x|] eqn:Hx; [|done].
  apply Forall_insert; [done|].
  apply (closed _ _ _ M).
  - eapply Forall_lookup_1; [exact Hlocals|exact Hacc].
  - eapply Forall_lookup_1; [exact Hin|exact Hx].
Qed.

End ReductionProperties.

(** ** The operator registry and the dispatcher *)

(** X8: the registry in full: a pair is invalid exactly when the element
    type is [COMPLEX128_LT] and the operator is not [SUM]; [SUM] is
    valid for every element type. *)
Theorem UnaryRedOp_valid_table :
  (forall op ty,
     UnaryRedOp_valid op ty = false <-> ty = COMPLEX128_LT /\ op <> SUM) /\
  (forall ty, UnaryRedOp_valid SUM ty = true).
Proof.
  split; [|by intros []].
  intros op ty. split.
  - by destruct op, ty.
  - intros [-> Hop]. by destruct op.
Qed.

(** X9: [op_dispatch] stops if and only if assertions are enabled and
    the code is none of the four enumerators; in every other case it
    returns the result of one specialization. *)
Theorem op_dispatch_aborts_iff {Args R : Type} NDEBUG op_code
    (f : UnaryRedCode -> Args -> R) (args : Args) :
  op_dispatch NDEBUG op_code f args = Abort
  <-> NDEBUG = false /\ forall c, op_code <> UnaryRedCode_value c.
Proof.
  assert ((exists c, op_code = UnaryRedCode_value c) \/
          (forall c, op_code <> UnaryRedCode_value c)) as [[c ->]|Hout].
  { destruct (decide (op_code = 1)) as [->|?]; [left; by exists MAX|].
    destruct (decide (op_code = 2)) as [->|?]; [left; by exists MIN|].
    destruct (decide (op_code = 3)) as [->|?]; [left; by exists PROD|].
    destruct (decide (op_code = 4)) as [->|?]; [left; by exists SUM|].
    right. by intros []. }
  - split; [by destruct c|].
    intros [_ Hout]. by destruct (Hout c).
  - rewrite op_code_outside by done.
    destruct NDEBUG; simpl; split; try done. by intros [? _].
Qed.

(** ** The type-erased operator *)

Section UntypedReductionProperties.

Variable float_identity : UnaryRedCode -> LegateTypeCode -> Z.
Variable float_apply : bool -> UnaryRedCode -> LegateTypeCode -> Z -> Z -> Z.
Variable float_fold : bool -> UnaryRedCode -> LegateTypeCode -> Z -> Z -> Z.

Local Abbreviation apply := (UntypedScalarRedOp_apply float_apply).
Local Abbreviation fold := (UntypedScalarRedOp_fold float_fold).

(** X10: with assertions enabled and exclusive access, [apply] and
    [fold] stop at an assertion exactly on a first scalar of type
    [COMPLEX128_LT] under an operator other than [SUM], whatever the
    second scalar.  Their run is undefined exactly when the first scalar
    is typed, the pair is valid and the payload of the second scalar
    cannot be read at the type of the first, as when the second scalar
    is empty and its pointer null.  In every other case they give a
    value. *)
Theorem untyped_aborts_iff op lhs rhs :
  (UntypedScalarRedOp_apply float_apply false op true lhs rhs = Abort
   <-> code lhs = COMPLEX128_LT /\ op <> SUM) /\
  (UntypedScalarRedOp_fold float_fold false op true lhs rhs = Abort
   <-> code lhs = COMPLEX128_LT /\ op <> SUM) /\
  (UntypedScalarRedOp_apply float_apply false op true lhs rhs = Undefined
   <-> code lhs <> MAX_TYPE_NUMBER /\ UnaryRedOp_valid op (code lhs) = true /\
       read_at (code lhs) rhs = None) /\
  (UntypedScalarRedOp_fold float_fold false op true lhs rhs = Undefined
   <-> code lhs <> MAX_TYPE_NUMBER /\ UnaryRedOp_valid op (code lhs) = true /\
       read_at (code lhs) rhs = None) /\
  (forall VAL payload, read_at VAL (mkUntypedScalar MAX_TYPE_NUMBER payload) = None).
Proof.
  assert (forall VAL payload,
            read_at VAL (mkUntypedScalar MAX_TYPE_NUMBER payload) = None) as Hnull
    by done.
  destruct (decide (code lhs = MAX_TYPE_NUMBER)) as [Hcode|Hcode].
  { unfold UntypedScalarRedOp_apply, UntypedScalarRedOp_fold. rewrite Hcode. simpl.
    split_and!; try done; (split; [done|]); intuition congruence. }
  rewrite apply_typed, fold_typed by done.
  pose proof (proj1 UnaryRedOp_valid_table op (code lhs)) as Htable.
  destruct (UnaryRedOp_valid op (code lhs)) eqn:Hvalid.
  - rewrite apply_fn_valid, fold_fn_valid by done.
    destruct (read_at (code lhs) rhs) as [r|];
      split_and!; try done; split; try done; intuition congruence.
  - unfold apply_fn, fold_fn. rewrite Hvalid. simpl.
    split_and!; try done; split; try done; intuition congruence.
Qed.

Lemma apply_fn_code NDEBUG op EXCLUSIVE ty lhs rhs r :
  apply_fn float_apply NDEBUG op EXCLUSIVE ty (lhs, rhs) = Done r -> code r = code lhs.
Proof.
  unfold apply_fn. destruct (UnaryRedOp_valid op ty).
  - destruct (read_at ty lhs); [|done]. destruct (read_at ty rhs); [|done].
    destruct (write_at ty _ lhs) as [lhs'|] eqn:Hwrite; [|done].
    intros [= <-]. by eapply write_at_code.
  - destruct NDEBUG; simpl; [|done]. by intros [= <-].
Qed.

Lemma fold_fn_code NDEBUG op EXCLUSIVE ty lhs rhs r :
  fold_fn float_fold NDEBUG op EXCLUSIVE ty (lhs, rhs) = Done r -> code r = code lhs.
Proof.
  unfold fold_fn. destruct (UnaryRedOp_valid op ty).
  - destruct (read_at ty lhs); [|done]. destruct (read_at ty rhs); [|done].
    destruct (write_at ty _ lhs) as [lhs'|] eqn:Hwrite; [|done].
    intros [= <-]. by eapply write_at_code.
  - destruct NDEBUG; simpl; [|done]. by intros [= <-].
Qed.

(** X12: once a scalar is typed, its tag never changes: whenever [apply]
    or [fold] on a typed first argument returns, the result carries the
    tag of that argument, whatever the tag of the second. *)
Theorem untyped_tag_kept NDEBUG op EXCLUSIVE lhs rhs r :
  code lhs <> MAX_TYPE_NUMBER ->
  UntypedScalarRedOp_apply float_apply NDEBUG op EXCLUSIVE lhs rhs = Done r \/
  UntypedScalarRedOp_fold float_fold NDEBUG op EXCLUSIVE lhs rhs = Done r ->
  code r = code lhs.
Proof.
  intros Hcode.
  unfold UntypedScalarRedOp_apply, UntypedScalarRedOp_fold.
  rewrite !type_dispatch_typed by done.
  rewrite !decide_False by done.
  destruct (assert_ NDEBUG EXCLUSIVE) as [[]| |]; simpl; [|by intros [|]..].
  intros [Hdone|Hdone].
  - by apply apply_fn_code in Hdone.
  - by apply fold_fn_code in Hdone.
Qed.

Lemma read_at_same_type ty s :
  code s = ty -> ty <> MAX_TYPE_NUMBER -> read_at ty s = Some (ptr s).
Proof. intros <- Hcode. by apply read_at_own. Qed.

(** One step on two scalars of one integer or boolean type. *)
Lemma apply_same_type NDEBUG op ty x y :
  is_integral ty = true ->
  UntypedScalarRedOp_apply float_apply NDEBUG op true
    (mkUntypedScalar ty x) (mkUntypedScalar ty y)
  = Done (mkUntypedScalar ty (integral_redop op ty x y)).
Proof.
  intros Hty.
  assert (ty <> MAX_TYPE_NUMBER) as Hcode by (by intros ->).
  assert (UnaryRedOp_valid op ty = true) as Hvalid by (by destruct op, ty).
  rewrite apply_typed by done. rewrite apply_fn_valid by done.
  rewrite (read_at_same_type _ (mkUntypedScalar ty y)) by done.
  simpl. unfold OP_apply. by rewrite Hty.
Qed.

Lemma fold_same_type NDEBUG op ty x y :
  is_integral ty = true ->
  UntypedScalarRedOp_fold float_fold NDEBUG op true
    (mkUntypedScalar ty x) (mkUntypedScalar ty y)
  = Done (mkUntypedScalar ty (UnaryRedOp_fold float_fold op ty x y)).
Proof.
  intros Hty.
  assert (ty <> MAX_TYPE_NUMBER) as Hcode by (by intros ->).
  assert (UnaryRedOp_valid op ty = true) as Hvalid by (by destruct op, ty).
  rewrite fold_typed by done. rewrite fold_fn_valid by done.
  by rewrite (read_at_same_type _ (mkUntypedScalar ty y)).
Qed.

Lemma apply_all_typed NDEBUG op ty a vs :
  is_integral ty = true ->
  apply_all float_apply NDEBUG op (mkUntypedScalar ty a) (mkUntypedScalar ty <$> vs)
  = Done (mkUntypedScalar ty (foldl (integral_redop op ty) a vs)).
Proof.
  intros Hty. unfold apply_all. revert a.
  induction vs as [|v vs IH]; intros a; simpl; [done|].
  rewrite <- IH. f_equal. by apply apply_same_type.
Qed.

Lemma foldl_integral_redop op ty a vs :
  is_integral ty = true ->
  foldl (UnaryRedOp_fold float_fold op ty) a vs = foldl (integral_redop op ty) a vs.
Proof.
  intros Hty. revert a. induction vs as [|v vs IH]; intros a; simpl; [done|].
  rewrite IH. unfold UnaryRedOp_fold, OP_fold. by rewrite Hty.
Qed.

(** X13: the type-erased operator agrees with the typed one: a reduction
    instance that starts empty and takes scalars of one integer or
    boolean type with [apply] ends with a scalar of that type whose
    payload is the typed fold of the values from the typed identity;
    with no value at all it stays empty. *)
Theorem apply_all_is_typed_fold NDEBUG op ty vs :
  is_integral ty = true ->
  Forall (in_range ty) vs ->
  apply_all float_apply NDEBUG op UntypedScalarRedOp_identity (mkUntypedScalar ty <$> vs)
  = Done (match vs with
          | [] => UntypedScalarRedOp_identity
          | _ => mkUntypedScalar ty
                   (foldl (UnaryRedOp_fold float_fold op ty)
                      (UnaryRedOp_identity float_identity op ty) vs)
          end).
Proof.
  intros Hty Hvs. destruct vs as [|v vs]; [done|].
  inversion_clear Hvs as [|? ? Hv _].
  pose proof (UnaryRedOp_monoid float_identity float_fold op ty Hty) as M.
  trans (apply_all float_apply NDEBUG op (mkUntypedScalar ty v) (mkUntypedScalar ty <$> vs)).
  { unfold apply_all. simpl. by destruct NDEBUG. }
  rewrite apply_all_typed by done.
  simpl. rewrite (left_unit _ _ _ M) by done.
  by rewrite foldl_integral_redop.
Qed.

(** X14: on scalars of one integer or boolean type the type-erased
    [fold] is associative and commutative, so partial results may be
    combined in any grouping and order. *)
Theorem untyped_fold_assoc_comm NDEBUG op ty a b c :
  is_integral ty = true ->
  in_range ty a -> in_range ty b -> in_range ty c ->
  (r ← fold NDEBUG op true (mkUntypedScalar ty a) (mkUntypedScalar ty b);
   fold NDEBUG op true r (mkUntypedScalar ty c))
  = (r ← fold NDEBUG op true (mkUntypedScalar ty b) (mkUntypedScalar ty c);
     fold NDEBUG op true (mkUntypedScalar ty a) r) /\
  fold NDEBUG op true (mkUntypedScalar ty a) (mkUntypedScalar ty b)
  = fold NDEBUG op true (mkUntypedScalar ty b) (mkUntypedScalar ty a).
Proof.
  intros Hty Ha Hb Hc.
  assert (ty <> MAX_TYPE_NUMBER) as Hcode by (by intros ->).
  assert (UnaryRedOp_valid op ty = true) as Hvalid by (by destruct op, ty).
  pose proof (UnaryRedOp_monoid float_identity float_fold op ty Hty) as M.
  assert (forall x y,
            fold NDEBUG op true (mkUntypedScalar ty x) (mkUntypedScalar ty y)
            = Done (mkUntypedScalar ty (UnaryRedOp_fold float_fold op ty x y))) as Hfold.
  { intros x y. by apply fold_same_type. }
  rewrite !Hfold. simpl. rewrite !Hfold. split.
  - do 2 f_equal. by apply (assoc _ _ _ M).
  - do 2 f_equal. by apply (comm _ _ _ M).
Qed.

End UntypedReductionProperties.

(** ** The task shims *)

Ltac shim_cases :=
  intros; unfold kernel_invocations in *; simpl in *;
  repeat match goal with
         | H : context [_ ∈ _ :: _] |- _ => rewrite elem_of_cons in H
         | H : context [_ ∈ []] |- _ => rewrite elem_of_nil in H
         end;
  rewrite ?elem_of_cons, ?elem_of_nil;
  intuition (try congruence; try discriminate; auto).

(** X15: a kernel body is only ever given a rectangle that is not empty,
    the very rectangle of the task (the input of repeat, the output of
    transpose), and repeat passes its axis on; each shim invokes its
    kernel once on such a rectangle and never on an empty one. *)
Theorem kernels_get_nonempty_rect :
  (forall args repeats axis rect,
     RepeatImplBody repeats axis rect ∈ RepeatImpl args ->
     Rect_empty rect = false /\ rect = args_input args /\ axis = args_axis args) /\
  (forall args rect,
     TransposeImplBody rect ∈ TransposeImpl args ->
     Rect_empty rect = false /\ rect = args_out args) /\
  (forall args,
     kernel_invocations (RepeatImpl args)
     = if Rect_empty (args_input args) then 0%nat else 1%nat) /\
  (forall args,
     kernel_invocations (TransposeImpl args)
     = if Rect_empty (args_out args) then 0%nat else 1%nat).
Proof.
  split; [|split; [|split]].
  - intros [rect0 repeats0 axis0 scalar] repeats axis rect. unfold RepeatImpl. simpl.
    destruct (Rect_empty rect0) eqn:Hempty, scalar; shim_cases.
  - intros [rect0] rect. unfold TransposeImpl. simpl.
    destruct (Rect_empty rect0) eqn:Hempty; shim_cases.
  - intros [rect0 repeats0 axis0 scalar]. unfold RepeatImpl. simpl.
    by destruct (Rect_empty rect0), scalar.
  - intros [rect0]. unfold TransposeImpl. simpl.
    by destruct (Rect_empty rect0).
Qed.

(** X16: what repeat does with its output: it binds empty data exactly
    when the input is empty and the counts are an array, and never
    together with a kernel invocation; with an empty input and a scalar
    count it returns having done neither, the one case in which the
    output is left as the task received it. *)
Theorem RepeatImpl_output args :
  (bind_empty_data output ∈ RepeatImpl args
   <-> Rect_empty (args_input args) = true /\ args_scalar_repeats args = false) /\
  (bind_empty_data output ∈ RepeatImpl args ->
   kernel_invocations (RepeatImpl args) = 0%nat) /\
  ((bind_empty_data output ∉ RepeatImpl args) /\
   kernel_invocations (RepeatImpl args) = 0%nat
   <-> Rect_empty (args_input args) = true /\ args_scalar_repeats args = true).
Proof.
  destruct args as [rect0 repeats0 axis0 scalar]. unfold RepeatImpl. simpl.
  destruct (Rect_empty rect0), scalar; (split; [|split]); shim_cases.
Qed.

(** X17: the store of repeat counts, a null store when the count is a
    scalar, is read exactly when the counts are an array and the input
    is not empty; the kernel is given the scalar count exactly when the
    count is a scalar; the shim itself takes no write accessor. *)
Theorem RepeatImpl_repeats_store args :
  (read_accessor repeats_arr ∈ RepeatImpl args
   <-> Rect_empty (args_input args) = false /\ args_scalar_repeats args = false) /\
  (forall repeats axis rect,
     RepeatImplBody repeats axis rect ∈ RepeatImpl args ->
     repeats = if args_scalar_repeats args then Some (args_repeats args) else None) /\
  (forall s, write_accessor s ∉ RepeatImpl args).
Proof.
  destruct args as [rect0 repeats0 axis0 scalar]. unfold RepeatImpl. simpl.
  destruct (Rect_empty rect0), scalar; (split; [|split]); shim_cases.
Qed.

(** ** The further properties on concrete inputs *)

Ltac follows_cases := intros [|[|[|[|tid]]]]; reflexivity.

(** A wrapping [uint8_t] product: 20 * 30 * 40 is 192 modulo 256. *)
Lemma UnaryRedOp_fold_assoc_comm_witness :
  is_integral UINT8_LT = true /\
  in_range UINT8_LT 20 /\ in_range UINT8_LT 30 /\ in_range UINT8_LT 40 /\
  UnaryRedOp_fold no_float_redop PROD UINT8_LT
    (UnaryRedOp_fold no_float_redop PROD UINT8_LT 20 30) 40
  = UnaryRedOp_fold no_float_redop PROD UINT8_LT 20
      (UnaryRedOp_fold no_float_redop PROD UINT8_LT 30 40) /\
  UnaryRedOp_fold no_float_redop PROD UINT8_LT 20 30
  = UnaryRedOp_fold no_float_redop PROD UINT8_LT 30 20 /\
  in_range UINT8_LT (UnaryRedOp_fold no_float_redop PROD UINT8_LT 20 30).
Proof.
  assert (is_integral UINT8_LT = true) as Hty by reflexivity.
  assert (in_range UINT8_LT 20) as Ha by (split; discriminate).
  assert (in_range UINT8_LT 30) as Hb by (split; discriminate).
  assert (in_range UINT8_LT 40) as Hc by (split; discriminate).
  split; [exact Hty|]. split; [exact Ha|]. split; [exact Hb|]. split; [exact Hc|].
  apply (UnaryRedOp_fold_assoc_comm no_float_identity no_float_redop
           PROD UINT8_LT 20 30 40 Hty Ha Hb Hc).
Defined.

(** Lane 1 of three runs nothing while lanes 0 and 2 fold. *)
Lemma parallel_region_idle_lane_witness :
  iterations_of 1 [(0, 0); (2, 1); (0, 2)]%nat = [] /\
  length (parallel_region no_float_redop SUM INT32_LT [5; 6; 7] [0; 0; 0]
            [(0, 0); (2, 1); (0, 2)]%nat) = length [0; 0; 0] /\
  parallel_region no_float_redop SUM INT32_LT [5; 6; 7] [0; 0; 0]
    [(0, 0); (2, 1); (0, 2)]%nat !! 1%nat = [0; 0; 0] !! 1%nat.
Proof.
  assert (iterations_of 1 [(0, 0); (2, 1); (0, 2)]%nat = []) as Hidle by reflexivity.
  split; [exact Hidle|].
  apply (parallel_region_idle_lane no_float_redop SUM INT32_LT [5; 6; 7] [0; 0; 0]
           [(0, 0); (2, 1); (0, 2)]%nat 1%nat Hidle).
Defined.

(** Eight accumulators, two lanes at work. *)
Lemma body_spare_lanes_witness :
  is_integral INT32_LT = true /\
  in_range INT32_LT 100 /\
  Forall (in_range INT32_LT) [1; 2; 3; 4] /\
  (length [[0; 1]; [2; 3]]%nat <= 8)%nat /\
  concat [[0; 1]; [2; 3]]%nat ≡ₚ seq 0 (length [1; 2; 3; 4]) /\
  follows [[0; 1]; [2; 3]]%nat [(1, 2); (0, 0); (1, 3); (0, 1)]%nat /\
  ScalarUnaryRedImplBody_OMP no_float_identity no_float_redop SUM INT32_LT 100
    [1; 2; 3; 4] true 8 [(1, 2); (0, 0); (1, 3); (0, 1)]%nat
  = foldl (UnaryRedOp_fold no_float_redop SUM INT32_LT) 100 [1; 2; 3; 4].
Proof.
  assert (is_integral INT32_LT = true) as Hty by reflexivity.
  assert (in_range INT32_LT 100) as Hr by (split; discriminate).
  assert (Forall (in_range INT32_LT) [1; 2; 3; 4]) as Hin
    by (repeat constructor; discriminate).
  assert (length [[0; 1]; [2; 3]]%nat <= 8)%nat as Hle by (simpl; lia).
  assert (concat [[0; 1]; [2; 3]]%nat ≡ₚ seq 0 (length [1; 2; 3; 4])) as Hperm
    by reflexivity.
  assert (follows [[0; 1]; [2; 3]]%nat [(1, 2); (0, 0); (1, 3); (0, 1)]%nat) as Hf
    by follows_cases.
  split; [exact Hty|]. split; [exact Hr|]. split; [exact Hin|]. split; [exact Hle|].
  split; [exact Hperm|]. split; [exact Hf|].
  apply (body_spare_lanes no_float_identity no_float_redop SUM INT32_LT 100
           [1; 2; 3; 4] true 8%nat [[0; 1]; [2; 3]]%nat
           [(1, 2); (0, 0); (1, 3); (0, 1)]%nat Hty Hr Hin Hle Hperm Hf).
Defined.

(** Two lanes with contiguous halves against three lanes with a
    scattered division, on a wrapping [int8_t] sum. *)
Lemma body_lane_count_independent_witness :
  is_integral INT8_LT = true /\
  in_range INT8_LT 0 /\
  Forall (in_range INT8_LT) [100; 100; -3; 7] /\
  (length [[0; 1]; [2; 3]]%nat <= 2)%nat /\
  concat [[0; 1]; [2; 3]]%nat ≡ₚ seq 0 (length [100; 100; -3; 7]) /\
  follows [[0; 1]; [2; 3]]%nat [(0, 0); (1, 2); (0, 1); (1, 3)]%nat /\
  (length [[1]; [0; 2]; [3]]%nat <= 4)%nat /\
  concat [[1]; [0; 2]; [3]]%nat ≡ₚ seq 0 (length [100; 100; -3; 7]) /\
  follows [[1]; [0; 2]; [3]]%nat [(2, 3); (1, 0); (0, 1); (1, 2)]%nat /\
  ScalarUnaryRedImplBody_OMP no_float_identity no_float_redop SUM INT8_LT 0
    [100; 100; -3; 7] true 2 [(0, 0); (1, 2); (0, 1); (1, 3)]%nat
  = ScalarUnaryRedImplBody_OMP no_float_identity no_float_redop SUM INT8_LT 0
      [100; 100; -3; 7] true 4 [(2, 3); (1, 0); (0, 1); (1, 2)]%nat.
Proof.
  assert (is_integral INT8_LT = true) as Hty by reflexivity.
  assert (in_range INT8_LT 0) as Hr by (split; discriminate).
  assert (Forall (in_range INT8_LT) [100; 100; -3; 7]) as Hin
    by (repeat constructor; discriminate).
  assert (length [[0; 1]; [2; 3]]%nat <= 2)%nat as Hle1 by (simpl; lia).
  assert (concat [[0; 1]; [2; 3]]%nat ≡ₚ seq 0 (length [100; 100; -3; 7])) as Hperm1
    by reflexivity.
  assert (follows [[0; 1]; [2; 3]]%nat [(0, 0); (1, 2); (0, 1); (1, 3)]%nat) as Hf1
    by follows_cases.
  assert (length [[1]; [0; 2]; [3]]%nat <= 4)%nat as Hle2 by (simpl; lia).
  assert (concat [[1]; [0; 2]; [3]]%nat ≡ₚ seq 0 (length [100; 100; -3; 7])) as Hperm2.
  { simpl. apply Permutation_swap. }
  assert (follows [[1]; [0; 2]; [3]]%nat [(2, 3); (1, 0); (0, 1); (1, 2)]%nat) as Hf2
    by follows_cases.
  split; [exact Hty|]. split; [exact Hr|]. split; [exact Hin|].
  split; [exact Hle1|]. split; [exact Hperm1|]. split; [exact Hf1|].
  split; [exact Hle2|]. split; [exact Hperm2|]. split; [exact Hf2|].
  apply (body_lane_count_independent no_float_identity no_float_redop SUM INT8_LT 0
           [100; 100; -3; 7] true
           2%nat [[0; 1]; [2; 3]]%nat [(0, 0); (1, 2); (0, 1); (1, 3)]%nat
           4%nat [[1]; [0; 2]; [3]]%nat [(2, 3); (1, 0); (0, 1); (1, 2)]%nat
           Hty Hr Hin Hle1 Hperm1 Hf1 Hle2 Hperm2 Hf2).
Defined.


(** A [uint8_t] product over [20; 30] and then over [40; 50]. *)
Lemma body_composes_witness :
  is_integral UINT8_LT = true /\
  in_range UINT8_LT 1 /\
  Forall (in_range UINT8_LT) [20; 30] /\
  (length [[0]; [1]]%nat <= 2)%nat /\
  concat [[0]; [1]]%nat ≡ₚ seq 0 (length [20; 30]) /\
  follows [[0]; [1]]%nat [(1, 1); (0, 0)]%nat /\
  Forall (in_range UINT8_LT) [40; 50] /\
  (length [[0; 1]]%nat <= 3)%nat /\
  concat [[0; 1]]%nat ≡ₚ seq 0 (length [40; 50]) /\
  follows [[0; 1]]%nat [(0, 0); (0, 1)]%nat /\
  ScalarUnaryRedImplBody_OMP no_float_identity no_float_redop PROD UINT8_LT
    (ScalarUnaryRedImplBody_OMP no_float_identity no_float_redop PROD UINT8_LT 1
       [20; 30] true 2 [(1, 1); (0, 0)]%nat)
    [40; 50] false 3 [(0, 0); (0, 1)]%nat
  = foldl (UnaryRedOp_fold no_float_redop PROD UINT8_LT) 1 ([20; 30] ++ [40; 50]).
Proof.
  assert (is_integral UINT8_LT = true) as Hty by reflexivity.
  assert (in_range UINT8_LT 1) as Hr by (split; discriminate).
  assert (Forall (in_range UINT8_LT) [20; 30]) as Hin1
    by (repeat constructor; discriminate).
  assert (length [[0]; [1]]%nat <= 2)%nat as Hle1 by (simpl; lia).
  assert (concat [[0]; [1]]%nat ≡ₚ seq 0 (length [20; 30])) as Hperm1 by reflexivity.
  assert (follows [[0]; [1]]%nat [(1, 1); (0, 0)]%nat) as Hf1 by follows_cases.
  assert (Forall (in_range UINT8_LT) [40; 50]) as Hin2
    by (repeat constructor; discriminate).
  assert (length [[0; 1]]%nat <= 3)%nat as Hle2 by (simpl; lia).
  assert (concat [[0; 1]]%nat ≡ₚ seq 0 (length [40; 50])) as Hperm2 by reflexivity.
  assert (follows [[0; 1]]%nat [(0, 0); (0, 1)]%nat) as Hf2 by follows_cases.
  split; [exact Hty|]. split; [exact Hr|].
  split; [exact Hin1|]. split; [exact Hle1|]. split; [exact Hperm1|]. split; [exact Hf1|].
  split; [exact Hin2|]. split; [exact Hle2|]. split; [exact Hperm2|]. split; [exact Hf2|].
  apply (body_composes no_float_identity no_float_redop PROD UINT8_LT 1
           [20; 30] true 2%nat [[0]; [1]]%nat [(1, 1); (0, 0)]%nat
           [40; 50] false 3%nat [[0; 1]]%nat [(0, 0); (0, 1)]%nat
           Hty Hr Hin1 Hle1 Hperm1 Hf1 Hin2 Hle2 Hperm2 Hf2).
Defined.

(** An order of iterations in which index 0 is folded twice and index 1
    never. *)
Lemma body_in_range_witness :
  is_integral INT8_LT = true /\
  in_range INT8_LT 1 /\
  Forall (in_range INT8_LT) [100; 3] /\
  in_range INT8_LT
    (ScalarUnaryRedImplBody_OMP no_float_identity no_float_redop PROD INT8_LT 1
       [100; 3] true 2 [(0, 0); (1, 0); (5, 1)]%nat).
Proof.
  assert (is_integral INT8_LT = true) as Hty by reflexivity.
  assert (in_range INT8_LT 1) as Hr by (split; discriminate).
  assert (Forall (in_range INT8_LT) [100; 3]) as Hin
    by (repeat constructor; discriminate).
  split; [exact Hty|]. split; [exact Hr|]. split; [exact Hin|].
  apply (body_in_range no_float_identity no_float_redop PROD INT8_LT 1
           [100; 3] true 2%nat [(0, 0); (1, 0); (5, 1)]%nat Hty Hr Hin).
Defined.

(** An [int32_t] scalar that takes an [int64_t] one stays [int32_t]. *)
Lemma untyped_tag_kept_witness :
  code (mkUntypedScalar INT32_LT 3) <> MAX_TYPE_NUMBER /\
  UntypedScalarRedOp_apply no_float_redop false SUM true
    (mkUntypedScalar INT32_LT 3) (mkUntypedScalar INT64_LT 5)
  = Done (mkUntypedScalar INT32_LT 8) /\
  code (mkUntypedScalar INT32_LT 8) = code (mkUntypedScalar INT32_LT 3).
Proof.
  assert (code (mkUntypedScalar INT32_LT 3) <> MAX_TYPE_NUMBER) as Hcode by discriminate.
  assert (UntypedScalarRedOp_apply no_float_redop false SUM true
            (mkUntypedScalar INT32_LT 3) (mkUntypedScalar INT64_LT 5)
          = Done (mkUntypedScalar INT32_LT 8)) as Happly by reflexivity.
  split; [exact Hcode|]. split; [exact Happly|].
  apply (untyped_tag_kept no_float_redop no_float_redop false SUM true
           (mkUntypedScalar INT32_LT 3) (mkUntypedScalar INT64_LT 5)
           (mkUntypedScalar INT32_LT 8) Hcode (or_introl Happly)).
Defined.

(** The minimum of three [int16_t] scalars, from the empty scalar. *)
Lemma apply_all_is_typed_fold_witness :
  is_integral INT16_LT = true /\
  Forall (in_range INT16_LT) [7; -2; 5] /\
  apply_all no_float_redop false MIN UntypedScalarRedOp_identity
    (mkUntypedScalar INT16_LT <$> [7; -2; 5])
  = Done (mkUntypedScalar INT16_LT
            (foldl (UnaryRedOp_fold no_float_redop MIN INT16_LT)
               (UnaryRedOp_identity no_float_identity MIN INT16_LT) [7; -2; 5])).
Proof.
  assert (is_integral INT16_LT = true) as Hty by reflexivity.
  assert (Forall (in_range INT16_LT) [7; -2; 5]) as Hvs
    by (repeat constructor; discriminate).
  split; [exact Hty|]. split; [exact Hvs|].
  apply (apply_all_is_typed_fold no_float_identity no_float_redop no_float_redop
           false MIN INT16_LT [7; -2; 5] Hty Hvs).
Defined.

(** A wrapping [int8_t] sum: 100 + 100 overflows before -73 is added. *)
Lemma untyped_fold_assoc_comm_witness :
  is_integral INT8_LT = true /\
  in_range INT8_LT 100 /\ in_range INT8_LT 100 /\ in_range INT8_LT (-73) /\
  (r ← UntypedScalarRedOp_fold no_float_redop false SUM true
         (mkUntypedScalar INT8_LT 100) (mkUntypedScalar INT8_LT 100);
   UntypedScalarRedOp_fold no_float_redop false SUM true r (mkUntypedScalar INT8_LT (-73)))
  = (r ← UntypedScalarRedOp_fold no_float_redop false SUM true
           (mkUntypedScalar INT8_LT 100) (mkUntypedScalar INT8_LT (-73));
     UntypedScalarRedOp_fold no_float_redop false SUM true (mkUntypedScalar INT8_LT 100) r).
Proof.
  assert (is_integral INT8_LT = true) as Hty by reflexivity.
  assert (in_range INT8_LT 100) as Ha by (split; discriminate).
  assert (in_range INT8_LT (-73)) as Hc by (split; discriminate).
  split; [exact Hty|]. split; [exact Ha|]. split; [exact Ha|]. split; [exact Hc|].
  apply (proj1 (untyped_fold_assoc_comm no_float_identity no_float_redop
                  false SUM INT8_LT 100 100 (-73) Hty Ha Ha Hc)).
Defined.

(** Repeat with a scalar count over the rectangle [0..3]. *)
Lemma kernels_get_nonempty_rect_witness :
  RepeatImplBody (Some 2) 1 (mkRect [0] [3])
    ∈ RepeatImpl (mkRepeatArgs (mkRect [0] [3]) 2 1 true) /\
  Rect_empty (mkRect [0] [3]) = false /\
  mkRect [0] [3] = args_input (mkRepeatArgs (mkRect [0] [3]) 2 1 true) /\
  1 = args_axis (mkRepeatArgs (mkRect [0] [3]) 2 1 true).
Proof.
  assert (RepeatImplBody (Some 2) 1 (mkRect [0] [3])
            ∈ RepeatImpl (mkRepeatArgs (mkRect [0] [3]) 2 1 true)) as Hin
    by (apply list_elem_of_further, list_elem_of_here).
  split; [exact Hin|].
  apply (proj1 kernels_get_nonempty_rect
           (mkRepeatArgs (mkRect [0] [3]) 2 1 true) (Some 2) 1 (mkRect [0] [3]) Hin).
Defined.

(** Repeat with array counts over the empty rectangle [0..-1]. *)
Lemma RepeatImpl_output_witness :
  bind_empty_data output ∈ RepeatImpl (mkRepeatArgs (mkRect [0] [-1]) 0 1 false) /\
  kernel_invocations (RepeatImpl (mkRepeatArgs (mkRect [0] [-1]) 0 1 false)) = 0%nat.
Proof.
  assert (bind_empty_data output
            ∈ RepeatImpl (mkRepeatArgs (mkRect [0] [-1]) 0 1 false)) as Hin
    by (apply list_elem_of_further, list_elem_of_here).
  split; [exact Hin|].
  apply (proj1 (proj2 (RepeatImpl_output (mkRepeatArgs (mkRect [0] [-1]) 0 1 false))) Hin).
Defined.

(** Repeat with array counts over the rectangle [0..3]. *)
Lemma RepeatImpl_repeats_store_witness :
  RepeatImplBody None 1 (mkRect [0] [3])
    ∈ RepeatImpl (mkRepeatArgs (mkRect [0] [3]) 0 1 false) /\
  None = (if args_scalar_repeats (mkRepeatArgs (mkRect [0] [3]) 0 1 false)
          then Some (args_repeats (mkRepeatArgs (mkRect [0] [3]) 0 1 false))
          else None).
Proof.
  assert (RepeatImplBody None 1 (mkRect [0] [3])
            ∈ RepeatImpl (mkRepeatArgs (mkRect [0] [3]) 0 1 false)) as Hin
    by (do 2 apply list_elem_of_further; apply list_elem_of_here).
  split; [exact Hin|].
  apply (proj1 (proj2 (RepeatImpl_repeats_store (mkRepeatArgs (mkRect [0] [3]) 0 1 false)))
           None 1 (mkRect [0] [3]) Hin).
Defined.

(** ** Scalars of different types *)

Lemma modulus_bytes ty :
  is_integral ty = true -> ty <> BOOL_LT -> modulus ty = 2 ^ (8 * sizeof ty).
Proof. destruct ty; try discriminate; done. Qed.

Lemma convert_low_bytes ty w :
  is_integral ty = true -> ty <> BOOL_LT ->
  convert ty (w `mod` 2 ^ (8 * sizeof ty)) = convert ty w.
Proof.
  intros Hty Hbool.
  destruct (integral_cases ty Hty) as [->|(Hm & _ & _ & Hc)]; [done|].
  rewrite !Hc, <- modulus_bytes by done.
  by rewrite Zminus_mod_idemp_l.
Qed.

Lemma low_bytes_of_wider ty ty' v :
  sizeof ty <= sizeof ty' ->
  (v `mod` 2 ^ (8 * sizeof ty')) `mod` 2 ^ (8 * sizeof ty) = v `mod` 2 ^ (8 * sizeof ty).
Proof.
  intros Hle.
  assert (0 <= sizeof ty) by (by destruct ty).
  apply Z.mod_mod_divide.
  exists (2 ^ (8 * sizeof ty' - 8 * sizeof ty)).
  rewrite <- Z.pow_add_r by lia. f_equal. lia.
Qed.

(** X19: a second scalar of a longer type is not converted: [apply] and
    [fold] on a first scalar of an integer type read the first bytes of
    its payload at that type, so the operator takes the value of the
    second scalar wrapped to the type of the first (the 64-bit
    [2 ^ 32 + 5] is 5 to a 32-bit first scalar); a second scalar of a
    shorter type is read past its end and the run is undefined. *)
Theorem mixed_types_read_low_bytes float_apply float_fold NDEBUG op ty ty' a v :
  is_integral ty = true ->
  ty <> BOOL_LT ->
  in_range ty a ->
  ty' <> MAX_TYPE_NUMBER ->
  (sizeof ty < sizeof ty' ->
   UntypedScalarRedOp_apply float_apply NDEBUG op true
     (mkUntypedScalar ty a) (mkUntypedScalar ty' v)
   = Done (mkUntypedScalar ty (integral_redop op ty a (convert ty v))) /\
   UntypedScalarRedOp_fold float_fold NDEBUG op true
     (mkUntypedScalar ty a) (mkUntypedScalar ty' v)
   = Done (mkUntypedScalar ty (integral_redop op ty a (convert ty v)))) /\
  (sizeof ty' < sizeof ty ->
   UntypedScalarRedOp_apply float_apply NDEBUG op true
     (mkUntypedScalar ty a) (mkUntypedScalar ty' v) = Undefined /\
   UntypedScalarRedOp_fold float_fold NDEBUG op true
     (mkUntypedScalar ty a) (mkUntypedScalar ty' v) = Undefined).
Proof.
  intros Hty Hbool _ Hcode'.
  assert (ty <> MAX_TYPE_NUMBER) as Hcode by (by intros ->).
  assert (UnaryRedOp_valid op ty = true) as Hvalid by (by destruct op, ty).
  rewrite apply_typed, fold_typed by done.
  rewrite apply_fn_valid, fold_fn_valid by done.
  simpl. unfold OP_apply, OP_fold. rewrite Hty.
  split; intros Hsize.
  - assert (read_at ty (mkUntypedScalar ty' v) = Some (convert ty v)) as ->; [|done].
    unfold read_at. simpl.
    rewrite decide_False by done.
    rewrite decide_False by (intros ->; lia).
    rewrite (proj2 (Z.leb_le _ _)) by lia.
    unfold from_bytes, to_bytes.
    rewrite low_bytes_of_wider by lia.
    rewrite <- (convert_low_bytes ty v) by done.
    unfold is_integral in Hty.
    destruct (legate_type_of ty) eqn:Hkind; try done.
    by destruct ty.
  - assert (read_at ty (mkUntypedScalar ty' v) = None) as ->; [|done].
    unfold read_at. simpl.
    rewrite decide_False by done.
    rewrite decide_False by (intros ->; lia).
    by rewrite (proj2 (Z.leb_gt _ _)) by lia.
Qed.

(** A 32-bit first scalar against a 64-bit and a 16-bit second one. *)
Lemma mixed_types_read_low_bytes_witness :
  is_integral INT32_LT = true /\
  INT32_LT <> BOOL_LT /\
  in_range INT32_LT 3 /\
  INT64_LT <> MAX_TYPE_NUMBER /\
  sizeof INT32_LT < sizeof INT64_LT /\
  UntypedScalarRedOp_apply no_float_redop false MAX true
    (mkUntypedScalar INT32_LT 3) (mkUntypedScalar INT64_LT 4294967301)
  = Done (mkUntypedScalar INT32_LT
            (integral_redop MAX INT32_LT 3 (convert INT32_LT 4294967301))) /\
  INT16_LT <> MAX_TYPE_NUMBER /\
  sizeof INT16_LT < sizeof INT32_LT /\
  UntypedScalarRedOp_apply no_float_redop false MAX true
    (mkUntypedScalar INT32_LT 3) (mkUntypedScalar INT16_LT 7) = Undefined.
Proof.
  assert (is_integral INT32_LT = true) as Hty by reflexivity.
  assert (INT32_LT <> BOOL_LT) as Hbool by discriminate.
  assert (in_range INT32_LT 3) as Ha by (split; discriminate).
  assert (INT64_LT <> MAX_TYPE_NUMBER) as H64 by discriminate.
  assert (INT16_LT <> MAX_TYPE_NUMBER) as H16 by discriminate.
  assert (sizeof INT32_LT < sizeof INT64_LT) as Hwider by reflexivity.
  assert (sizeof INT16_LT < sizeof INT32_LT) as Hshorter by reflexivity.
  split; [exact Hty|]. split; [exact Hbool|]. split; [exact Ha|].
  split; [exact H64|]. split; [exact Hwider|]. split.
  - apply (proj1 (proj1 (mixed_types_read_low_bytes no_float_redop no_float_redop
                           false MAX INT32_LT INT64_LT 3 4294967301 Hty Hbool Ha H64)
                    Hwider)).
  - split; [exact H16|]. split; [exact Hshorter|].
    apply (proj1 (proj2 (mixed_types_read_low_bytes no_float_redop no_float_redop
                           false MAX INT32_LT INT16_LT 3 7 Hty Hbool Ha H16)
                    Hshorter)).
Defined.
